(** * Chunking, vector index and retrieval-augmented answering

    A shallow embedding of [backend/chunker.py], [backend/vector_store.py],
    [backend/rag_engine.py] and the [/api/query] handler of
    [backend/main.py], with the properties of the pipeline stated and
    proved over it.

    Conventions.
    - A Python [str] is a list of Unicode code points ([list N]).
    - Python [int] configuration values are [Z]; counters that only count
      up from zero are [nat].
    - numpy [float32] values are idealised as exact rationals ([Q]):
      rounding, overflow to [inf] and [NaN] are not part of the model.
    - An operation that can raise returns a [result]; an operation that
      mutates [self] returns the store it leaves behind next to its result,
      also when it raises. *)

From Stdlib Require Import ZArith QArith Lqa List Sorted Lia.
From Stdlib Require Import Strings.String Strings.Ascii Numbers.DecimalString.
From Stdlib Require Import Numbers.DecimalNat.
From stdpp Require Import base numbers list option.

Local Open Scope Z_scope.

(** ** Python strings *)

Module PyStr.

Abbreviation char := N (only parsing).
Abbreviation str := (list N) (only parsing).

(** A literal of the source, character by character (ASCII literals). *)
Definition u (s : string) : str :=
  map N_of_ascii (list_ascii_of_string s).

(** The code points Python treats as whitespace ([str.isspace], [str.split]
    and [str.strip] without arguments, and [\s] in a [str] pattern). *)
Definition isspace (c : char) : bool :=
  ((9 <=? c) && (c <=? 13) || (28 <=? c) && (c <=? 32) ||
   (c =? 133) || (c =? 160) || (c =? 5760) ||
   (8192 <=? c) && (c <=? 8202) || (c =? 8232) || (c =? 8233) ||
   (c =? 8239) || (c =? 8287) || (c =? 12288))%N.

(** [[A-Z]] *)
Definition is_AZ (c : char) : bool := ((65 <=? c) && (c <=? 90))%N.

(** [[.!?]] *)
Definition is_terminator (c : char) : bool :=
  ((c =? 46) || (c =? 33) || (c =? 63))%N.

Definition SP : char := 32%N.
Definition NL : char := 10%N.

(** [s.split()]: maximal runs of non-whitespace; [cur] is the word being
    read, most recent character first. *)
Fixpoint split_aux (cur : str) (s : str) : list str :=
  match s with
  | [] => match cur with [] => [] | _ => [rev cur] end
  | c :: s' =>
      if isspace c then
        match cur with
        | [] => split_aux [] s'
        | _ => rev cur :: split_aux [] s'
        end
      else split_aux (c :: cur) s'
  end.

Definition split (s : str) : list str := split_aux [] s.

(** [sep.join(l)] *)
Fixpoint join (sep : str) (l : list str) : str :=
  match l with
  | [] => []
  | [x] => x
  | x :: l' => x ++ sep ++ join sep l'
  end.

Fixpoint lstrip (s : str) : str :=
  match s with
  | [] => []
  | c :: s' => if isspace c then lstrip s' else s
  end.

(** [s.strip()] *)
Definition strip (s : str) : str := rev (lstrip (rev (lstrip s))).

(** Truthiness of a [str] or a list: non-empty. *)
Definition truthy {A} (l : list A) : bool :=
  match l with [] => false | _ => true end.

(** [l[start:]] with Python's treatment of a negative start. *)
Definition slice_from {A} (start : Z) (l : list A) : list A :=
  if start <? 0
  then drop (Z.to_nat (Z.max (Z.of_nat (length l) + start) 0)) l
  else drop (Z.to_nat start) l.

(** [l[:stop]] for a non-negative stop. *)
Definition slice_to {A} (stop : nat) (l : list A) : list A := take stop l.

(** [needle in s] on strings: [needle] occurs as a substring. *)
Fixpoint starts_with (p s : str) : bool :=
  match p, s with
  | [], _ => true
  | _ :: _, [] => false
  | a :: p', b :: s' => (a =? b)%N && starts_with p' s'
  end.

Fixpoint contains (needle s : str) : bool :=
  starts_with needle s ||
  match s with
  | [] => false
  | _ :: s' => contains needle s'
  end.

(** [f"{n}"] for a non-negative [int]. *)
Definition str_of_nat (n : nat) : str :=
  u (NilZero.string_of_uint (Nat.to_uint n)).

(** A word: what [split] returns, non-empty and free of whitespace. *)
Definition is_word (w : str) : Prop :=
  w <> [] /\ Forall (fun c => isspace c = false) w.

End PyStr.
Import PyStr.

(** ** backend/models.py *)

Record ChunkMetadata := mkChunk {
  chunk_id : str;
  doc_id : str;
  doc_type : str;
  filename : str;
  page_number : option Z;
  chunk_index : nat;
  text : str
}.

(** ** backend/chunker.py *)

Module Chunker.

(** The three attributes of [TextChunker]. *)
Record TextChunker := mkChunker {
  chunk_size : Z;
  chunk_overlap : Z;
  min_chunk_size : Z
}.

(** [config.CHUNK_SIZE], [config.CHUNK_OVERLAP], [config.MIN_CHUNK_SIZE]. *)
Definition default_chunker : TextChunker := mkChunker 250 50 100.

(** One entry of [pages]: [{'page_number': ..., 'text': ...}]. *)
Record page_info := mkPage { pg_number : Z; pg_text : str }.

(** [re.split(r'(?<=[.!?])\s+(?=[A-Z])', text)].

    A separator is a maximal whitespace run that follows one of [.!?] and is
    followed by a capital letter.  [prev] is the character before the
    current position, [sep] tells that the position is inside a separator
    already recognised, [cur] is the piece being read (reversed). *)
Definition capital_ahead (s : str) : bool :=
  match lstrip s with
  | c :: _ => is_AZ c
  | [] => false
  end.

Fixpoint re_split (prev : option char) (sep : bool) (cur : str) (s : str)
  : list str :=
  match s with
  | [] => [rev cur]
  | c :: s' =>
      if sep && isspace c then re_split (Some c) true cur s'
      else if match prev with Some p => is_terminator p | None => false end
              && isspace c && capital_ahead s'
      then rev cur :: re_split (Some c) true [] s'
      else re_split (Some c) false (c :: cur) s'
  end.

Definition _split_into_sentences (text : str) : list str :=
  let sentences := re_split None false [] text in
  map strip (filter (fun s => truthy (strip s) = true) sentences).

(** The local variables of the loop of [_chunk_text]. *)
Record loop_state := mkLoop {
  chunks : list ChunkMetadata;
  current_chunk : list str;
  current_word_count : Z;
  next_index : nat   (* the local [chunk_index] *)
}.

Section ChunkText.
Variable self : TextChunker.
Variables (doc : str) (fname : str) (dtype : str) (page : option Z).

Definition make_chunk (idx : nat) (chunk_text : str) : ChunkMetadata :=
  {| chunk_id := doc ++ u "_chunk_" ++ str_of_nat idx;
     doc_id := doc;
     doc_type := dtype;
     filename := fname;
     page_number := page;
     chunk_index := idx;
     text := chunk_text |}.

(** [if len(chunk_text.split()) >= self.min_chunk_size: chunks.append(...)] *)
Definition meets_floor (chunk_text : str) : bool :=
  min_chunk_size self <=? Z.of_nat (length (split chunk_text)).

(** The new accumulator after a chunk is closed (lines 110-119). *)
Definition restart (cur : list str) (sentence : str) (word_count : Z)
  : list str * Z :=
  let overlap_words := chunk_overlap self in
  if (0 <? overlap_words) && (0 <? Z.of_nat (length cur)) then
    let all_words := split (join [SP] cur) in
    let overlap_text := join [SP] (slice_from (- overlap_words) all_words) in
    ([overlap_text; sentence],
     Z.of_nat (length (split overlap_text)) + word_count)
  else ([sentence], word_count).

(** One iteration of [for sentence in sentences]. *)
Definition loop_body (st : loop_state) (sentence : str) : loop_state :=
  let words := split sentence in
  let word_count := Z.of_nat (length words) in
  if (chunk_size self <? current_word_count st + word_count)
     && truthy (current_chunk st)
  then
    let chunk_text := join [SP] (current_chunk st) in
    let emitted := meets_floor chunk_text in
    let chunks' :=
      if emitted
      then chunks st ++ [make_chunk (next_index st) chunk_text]
      else chunks st in
    let index' := if emitted then S (next_index st) else next_index st in
    let '(cur', count') := restart (current_chunk st) sentence word_count in
    mkLoop chunks' cur' count' index'
  else
    mkLoop (chunks st) (current_chunk st ++ [sentence])
           (current_word_count st + word_count) (next_index st).

(** The final flush (lines 125-137). *)
Definition flush (st : loop_state) : list ChunkMetadata :=
  if truthy (current_chunk st) then
    let chunk_text := join [SP] (current_chunk st) in
    if meets_floor chunk_text
    then chunks st ++ [make_chunk (next_index st) chunk_text]
    else chunks st
  else chunks st.

Definition run_loop (st : loop_state) (sentences : list str) : loop_state :=
  fold_left loop_body sentences st.

Definition _chunk_sentences (sentences : list str) : list ChunkMetadata :=
  flush (run_loop (mkLoop [] [] 0 0%nat) sentences).

Definition _chunk_text (txt : str) : list ChunkMetadata :=
  _chunk_sentences (_split_into_sentences txt).

End ChunkText.

(** [chunk_document]: per page when [pages] is a non-empty list, over the
    whole text otherwise ([None] and [[]] are both falsy). *)
Definition chunk_document (self : TextChunker) (txt doc fname dtype : str)
    (pages : option (list page_info)) : list ChunkMetadata :=
  match pages with
  | Some (p :: ps) =>
      concat (map (fun page_info =>
                     _chunk_text self doc fname dtype
                       (Some (pg_number page_info)) (pg_text page_info))
                  (p :: ps))
  | _ => _chunk_text self doc fname dtype None txt
  end.

(** The same chunker with the emission floor switched off: every
    accumulator the loop closes is then emitted. *)
Definition without_floor (self : TextChunker) : TextChunker :=
  mkChunker (chunk_size self) (chunk_overlap self) 0.

(** The texts of the accumulators closed by one [_chunk_text] call, emitted
    or not. *)
Definition closed_windows (self : TextChunker) (txt : str) : list str :=
  map text (_chunk_text (without_floor self) [] [] [] None txt).

End Chunker.


(** ** Predicates used to state the chunker's properties *)

Module ChunkerProps.
Import Chunker.

(** The emitted chunk is not below the floor. *)
Definition above_floor (self : TextChunker) (c : ChunkMetadata) : Prop :=
  min_chunk_size self <= Z.of_nat (length (split (text c))).

(** [st] is a state of the run of [self], [st0] the state of the run
    without floor at the same sentence. *)
Definition windows_rel (self : TextChunker) (st st0 : loop_state) : Prop :=
  current_chunk st = current_chunk st0 /\
  current_word_count st = current_word_count st0 /\
  map text (chunks st)
  = filter (fun t => meets_floor self t = true) (map text (chunks st0)).

(** [w2] starts with the last [k] words of [w1] (all of them when [w1] has
    fewer). *)
Definition overlaps (k : Z) (w1 w2 : str) : Prop :=
  slice_from (- k) (split w1) `prefix_of` split w2.

(** Every two neighbours of [ws] overlap. *)
Definition chained (k : Z) (ws : list str) : Prop :=
  forall l1 w1 w2 l2, ws = l1 ++ w1 :: w2 :: l2 -> overlaps k w1 w2.

(** The accumulator starts with the overlap text of the last closed
    accumulator. *)
Definition seeded (k : Z) (st : loop_state) : Prop :=
  forall l w, map text (chunks st) = l ++ [w] ->
    exists rest,
      current_chunk st = join [SP] (slice_from (- k) (split w)) :: rest.

Definition overlap_inv (k : Z) (st : loop_state) : Prop :=
  chained k (map text (chunks st)) /\ seeded k st.

(** The chunks are numbered [0 .. n-1] and their ids follow the index. *)
Definition numbered (doc : str) (cs : list ChunkMetadata) (n : nat) : Prop :=
  map chunk_index cs = seq 0 n /\
  Forall (fun c => chunk_id c
                   = doc ++ u "_chunk_" ++ str_of_nat (chunk_index c)) cs.

End ChunkerProps.

(** ** Exceptions *)

Module Py.

Inductive exn :=
  | ValueError (msg : str)
  | AssertionError
  | RuntimeError
  | IndexError
  | HTTPException (status_code : Z) (detail : str)
  | Exception (msg : str).

Inductive result (A : Type) :=
  | Ok (a : A)
  | Raise (e : exn).
Arguments Ok {A} a.
Arguments Raise {A} e.

Definition raised {A} (r : result A) : Prop := exists e, r = Raise e.

(** A comprehension whose element expression can raise: the first exception
    wins. *)
Fixpoint collect {A} (l : list (result A)) : result (list A) :=
  match l with
  | [] => Ok []
  | Raise e :: _ => Raise e
  | Ok a :: l' =>
      match collect l' with
      | Ok r => Ok (a :: r)
      | Raise e => Raise e
      end
  end.

(** [l[i]] for a non-negative [i]. *)
Definition getitem {A} (l : list A) (i : nat) : result A :=
  match l !! i with
  | Some a => Ok a
  | None => Raise IndexError
  end.

(** [enumerate(l)] *)
Definition enumerate {A} (l : list A) : list (nat * A) :=
  combine (seq 0 (length l)) l.

End Py.
Import Py.

(** ** The faiss index, as the vector store uses it

    [faiss.IndexFlatL2] is a third-party class: a flat array of stored rows
    searched exhaustively by squared Euclidean distance.  Its Python wrapper
    asserts [x.shape[1] == self.d] in [add] and [search], and [k > 0] in
    [search]. *)

Module Faiss.

Abbreviation vec := (list Q) (only parsing).

(** A two-dimensional [float32] array of shape [(length rows, width)]. *)
Record ndarray := mkArray { width : nat; rows : list vec }.

Record IndexFlatL2 := mkIndex { d : nat; xb : list vec }.

(** [faiss.IndexFlatL2(dim)] *)
Definition new_index (dim : nat) : IndexFlatL2 := mkIndex dim [].

Definition ntotal (idx : IndexFlatL2) : nat := length (xb idx).

(** [index.add(x)] *)
Definition add (idx : IndexFlatL2) (x : ndarray) : result IndexFlatL2 :=
  if Nat.eqb (width x) (d idx)
  then Ok (mkIndex (d idx) (xb idx ++ rows x))
  else Raise AssertionError.

(** Row [i] of the stored array, when there is one. *)
Definition read_row (l : list vec) (i : nat) : result vec :=
  match l !! i with
  | Some v => Ok v
  | None => Raise RuntimeError
  end.

(** [index.reconstruct(i)] *)
Definition reconstruct (idx : IndexFlatL2) (i : nat) : result vec :=
  read_row (xb idx) i.

(** Squared Euclidean distance. *)
Definition sqdist (a b : vec) : Q :=
  fold_right Qplus 0%Q
    (map (fun p => ((fst p - snd p) * (fst p - snd p))%Q) (combine a b)).

(** Insertion by ascending distance; among equal distances the lower row
    comes first. *)
Fixpoint insert_by_dist (p : Q * nat) (l : list (Q * nat)) : list (Q * nat) :=
  match l with
  | [] => [p]
  | q :: l' =>
      if Qle_bool (fst p) (fst q) then p :: q :: l'
      else q :: insert_by_dist p l'
  end.

Definition sort_by_dist (l : list (Q * nat)) : list (Q * nat) :=
  fold_right insert_by_dist [] l.

(** All rows with their distance to [q], nearest first. *)
Definition ranked (idx : IndexFlatL2) (q : vec) : list (Q * nat) :=
  sort_by_dist (map (fun p => (sqdist q (snd p), fst p)) (enumerate (xb idx))).

(** [index.search(x, k)] for an array [x] of one row [q]: the pair
    [(distances[0], indices[0])].  The caller never asks for more than
    [ntotal] neighbours, so the padding faiss uses beyond that is not
    modelled. *)
Definition search (idx : IndexFlatL2) (q : vec) (k : Z)
  : result (list Q * list nat) :=
  if negb (Nat.eqb (length q) (d idx)) then Raise AssertionError
  else if k <=? 0 then Raise AssertionError
  else let best := take (Z.to_nat k) (ranked idx q) in
       Ok (map fst best, map snd best).

End Faiss.

(** ** backend/vector_store.py *)

Module Store.
Import Faiss.

(** One entry of [self.metadata]: the dict built by [add_embeddings]. *)
Record Meta := mkMeta {
  m_chunk_id : str;
  m_doc_id : str;
  m_doc_type : str;
  m_filename : str;
  m_page_number : option Z;
  m_chunk_index : nat;
  m_text : str
}.

Definition meta_of_chunk (chunk : ChunkMetadata) : Meta :=
  {| m_chunk_id := chunk_id chunk;
     m_doc_id := doc_id chunk;
     m_doc_type := doc_type chunk;
     m_filename := filename chunk;
     m_page_number := page_number chunk;
     m_chunk_index := chunk_index chunk;
     m_text := text chunk |}.

Record VectorStore := mkStore {
  embedding_dim : nat;
  index : IndexFlatL2;
  metadata : list Meta
}.

(** A store created with no files on disk. *)
Definition new_store (dim : nat) : VectorStore :=
  mkStore dim (new_index dim) [].

(** [add_embeddings]: the result and the store left behind. *)
Definition add_embeddings (self : VectorStore) (embeddings : ndarray)
    (chunks : list ChunkMetadata) : result unit * VectorStore :=
  if negb (Nat.eqb (length (rows embeddings)) (length chunks)) then
    (Raise (ValueError (u "Number of embeddings must match number of chunks")),
     self)
  else
    match add (index self) embeddings with
    | Raise e => (Raise e, self)
    | Ok index' =>
        (Ok tt,
         mkStore (embedding_dim self) index'
                 (metadata self ++ map meta_of_chunk chunks))
    end.

(** [doc_ids and metadata['doc_id'] not in doc_ids] *)
Definition filtered_out (doc_ids : option (list str)) (m : Meta) : bool :=
  match doc_ids with
  | Some (i :: ids) => negb (bool_decide (m_doc_id m ∈ i :: ids))
  | _ => false
  end.

(** [1 / (1 + dist)] *)
Definition similarity_of (dist : Q) : Q := (1 / (1 + dist))%Q.

(** The loop over [zip(distances[0], indices[0])], with its [break]. *)
Fixpoint search_loop (self : VectorStore) (top_k : Z)
    (doc_ids : option (list str)) (pool : list (Q * nat))
    (results : list (Meta * Q)) : list (Meta * Q) :=
  match pool with
  | [] => results
  | (dist, idx) :: pool' =>
      match metadata self !! idx with
      | Some m =>
          if filtered_out doc_ids m
          then search_loop self top_k doc_ids pool' results
          else
            let results' := results ++ [(m, similarity_of dist)] in
            if top_k <=? Z.of_nat (length results') then results'
            else search_loop self top_k doc_ids pool' results'
      | None => search_loop self top_k doc_ids pool' results
      end
  end.

(** [top_k * 10 if doc_ids else top_k] *)
Definition search_k (top_k : Z) (doc_ids : option (list str)) : Z :=
  match doc_ids with
  | Some (_ :: _) => top_k * 10
  | _ => top_k
  end.

Definition search (self : VectorStore) (query_embedding : vec) (top_k : Z)
    (doc_ids : option (list str)) : result (list (Meta * Q)) :=
  if Nat.eqb (ntotal (index self)) 0 then Ok []
  else
    match Faiss.search (index self) query_embedding
            (Z.min (search_k top_k doc_ids) (Z.of_nat (ntotal (index self))))
    with
    | Raise e => Raise e
    | Ok (distances, indices) =>
        Ok (search_loop self top_k doc_ids (combine distances indices) [])
    end.

Definition get_chunks_by_doc_id (self : VectorStore) (doc : str)
  : list Meta :=
  filter (fun m => m_doc_id m = doc) (metadata self).

(** [[i for i, m in enumerate(self.metadata) if m['doc_id'] != doc_id]] *)
Definition indices_to_keep (self : VectorStore) (doc : str) : list nat :=
  map fst (filter (fun p => m_doc_id (snd p) <> doc)
                  (enumerate (metadata self))).

(** [delete_document]: the result and the store left behind.  The fresh
    index is assigned to [self.index] before the retained rows are added to
    it. *)
Definition delete_document (self : VectorStore) (doc : str)
  : result unit * VectorStore :=
  let keep := indices_to_keep self doc in
  if Nat.eqb (length keep) (length (metadata self)) then (Ok tt, self)
  else if truthy keep then
    match collect (map (reconstruct (index self)) keep) with
    | Raise e => (Raise e, self)
    | Ok old_vectors =>
        let fresh := new_index (embedding_dim self) in
        let self1 := mkStore (embedding_dim self) fresh (metadata self) in
        match add fresh (mkArray (d (index self)) old_vectors) with
        | Raise e => (Raise e, self1)
        | Ok index' =>
            let self2 := mkStore (embedding_dim self) index' (metadata self) in
            match collect (map (getitem (metadata self)) keep) with
            | Raise e => (Raise e, self2)
            | Ok metadata' =>
                (Ok tt, mkStore (embedding_dim self) index' metadata')
            end
        end
    end
  else (Ok tt, mkStore (embedding_dim self) (new_index (embedding_dim self)) []).

(** [get_stats()['total_chunks']] *)
Definition total_chunks (self : VectorStore) : nat := ntotal (index self).

(** The store's invariant: the index has the configured dimension and one
    row per metadata entry. *)
Definition store_wf (self : VectorStore) : Prop :=
  d (index self) = embedding_dim self /\
  length (metadata self) = ntotal (index self).

(** What the loop of [search] does with one candidate. *)
Definition keep_candidate (self : VectorStore) (doc_ids : option (list str))
    (c : Q * nat) : option (Meta * Q) :=
  match metadata self !! snd c with
  | Some m =>
      if filtered_out doc_ids m then None else Some (m, similarity_of (fst c))
  | None => None
  end.

(** Ascending distance, and descending similarity. *)
Definition dist_le (a b : Q * nat) : Prop := (fst a <= fst b)%Q.

End Store.

(** ** backend/rag_engine.py *)

Module RAG.
Import Faiss Store.

(** [SourceChunk] and [QueryResponse] of [models.py]. *)
Record SourceChunk := mkSource {
  src_text : str;
  src_doc_id : str;
  src_filename : str;
  src_doc_type : str;
  src_page_number : option Z;
  similarity_score : Q
}.

Record QueryResponse := mkResponse {
  question : str;
  answer : str;
  sources : list SourceChunk;
  confidence : option Q
}.

Inductive llm_kind := openai | ollama.

(** The reply of [requests.post]: the status, what [response.json()] gives
    (it can raise; otherwise the ['response'] field when there is one) and
    the body. *)
Record OllamaReply := mkReply {
  status_code : Z;
  reply_json : result (option str);
  reply_text : str
}.

(** What the engine calls and does not own: the embedding model, the two
    generative services, [re.search(pattern, s, re.IGNORECASE)] (giving
    [group(1)] of the match) and [str.lower]. *)
Record Externals := mkExternals {
  embed_text : str -> list Q;
  openai_chat : str -> result str;
  ollama_post : str -> result OllamaReply;
  re_search : str -> str -> option str;
  str_lower : str -> str
}.

(** The calls made to the embedding model and the generative services, in
    order. *)
Inductive event :=
  | EmbedCall (text : str)
  | OpenAICall (prompt : str)
  | OllamaCall (prompt : str).

Record RAGEngine := mkEngine {
  vector_store : VectorStore;
  llm_type : llm_kind
}.

Definition RUPEE : char := 8377%N.

Definition _create_prompt (question context : str) : str :=
  join [NL]
    [u "You are an AI assistant helping with insurance claim analysis. Answer the question based ONLY on the provided context from insurance documents.";
     [];
     u "Context from documents:";
     context;
     [];
     u "Question: " ++ question;
     [];
     u "Instructions:";
     u "1. Answer based ONLY on the information in the context above";
     u "2. If the context doesn't contain enough information, say so clearly";
     u "3. Be specific and cite relevant details from the documents";
     u "4. Keep your answer concise and factual";
     u "5. If mentioning amounts, dates, or policy numbers, quote them exactly as they appear";
     [];
     u "Answer:"].

Section Engine.
Variable ext : Externals.

Definition _generate_with_openai (prompt : str) : result str :=
  match openai_chat ext prompt with
  | Ok content => Ok (strip content)
  | Raise _ => Raise (Exception (u "OpenAI API error"))
  end.

Definition _generate_with_ollama (prompt : str) : result str :=
  match ollama_post ext prompt with
  | Ok response =>
      if status_code response =? 200 then
        match reply_json response with
        | Ok (Some r) => Ok (strip r)
        | Ok None =>
            Raise (Exception
                     (u "Ollama error: Ollama response missing 'response' field"))
        | Raise _ => Raise (Exception (u "Ollama error"))
        end
      else Raise (Exception (u "Ollama error: Ollama returned status"))
  | Raise _ => Raise (Exception (u "Ollama error"))
  end.

(** The patterns of the fallback, in the order of the source. *)
Definition pat_policy_strict : str :=
  u "Policy\s*(?:No|Number|#)?[:\s]+([A-Z]{3}-\d{4}-[A-Z]{2}-\d{6})".
Definition pat_policy_loose : str :=
  u "Policy\s*(?:No|Number|#)?[:\s]+([A-Z0-9\-/]{10,})".
Definition pat_claim_amount : str :=
  u "(?:Claim\s*Amount|Total\s*Claim|TOTAL\s*PAYABLE)[:\s]*" ++ [RUPEE]
    ++ u "?\s*([\d,]+(?:\.\d{2})?)".
Definition pat_hospital : str :=
  u "Hospital\s*(?:Name)?[:\s]*([A-Z][a-zA-Z\s&]+(?:Hospital|Medical|Clinic))".
Definition pat_diagnosis : str := u "Diagnosis[:\s]*([A-Z][a-zA-Z\s]+)".
Definition pat_sum_assured : str :=
  u "Sum\s*Assured[:\s]*" ++ [RUPEE] ++ u "?\s*([\d,]+)".
Definition pat_patient : str :=
  u "Patient\s*Name[:\s]*([A-Z][a-z]+(?:\s+[A-Z][a-z]+)+)".
Definition pat_summary_policy : str :=
  u "Policy\s*(?:No|Number)?[:\s]*([A-Z0-9\-/]+)".
Definition pat_summary_claim : str :=
  u "(?:Claim\s*Amount|TOTAL)[:\s]*" ++ [RUPEE] ++ u "?\s*([\d,]+)".
Definition pat_summary_hospital : str :=
  u "Hospital[:\s]*([A-Z][a-zA-Z\s&]+Hospital)".

(** The last [return] of the fallback: the first 500 characters of the
    context and a note that the model is unavailable. *)
Definition preview_answer (context : str) : str :=
  let context_preview := slice_to 500 context in
  u "Based on the retrieved documents: " ++ context_preview
    ++ u "..." ++ [NL; NL]
    ++ u "(Note: LLM is currently unavailable. This is a basic extraction from the documents. For better answers, please configure OpenAI API key or ensure Ollama is running with llama2 model loaded.)".

(** [summary_parts] of the [summarize] branch. *)
Definition summary_parts (context : str) : list str :=
  (match re_search ext pat_summary_policy context with
   | Some g => [u "Policy Number: " ++ g]
   | None => []
   end)
  ++ (match re_search ext pat_summary_claim context with
      | Some g => [u "Claim Amount: " ++ [RUPEE] ++ g]
      | None => []
      end)
  ++ (match re_search ext pat_summary_hospital context with
      | Some g => [u "Hospital: " ++ strip g]
      | None => []
      end).

Definition _generate_fallback_answer (question context : str) : str :=
  let question_lower := str_lower ext question in
  let has kw := contains kw question_lower in
  if has (u "policy number") then
    let mtch :=
      match re_search ext pat_policy_strict context with
      | Some g => Some g
      | None => re_search ext pat_policy_loose context
      end in
    match mtch with
    | Some g => u "Based on the documents, the policy number is " ++ g ++ u "."
    | None => preview_answer context
    end
  else if has (u "claim amount") || has (u "claim") && has (u "amount") then
    match re_search ext pat_claim_amount context with
    | Some g =>
        u "Based on the documents, the claim amount is " ++ [RUPEE] ++ g
          ++ u "."
    | None => preview_answer context
    end
  else if has (u "hospital") then
    match re_search ext pat_hospital context with
    | Some g =>
        u "Based on the documents, the hospital mentioned is " ++ strip g
          ++ u "."
    | None => preview_answer context
    end
  else if has (u "diagnosis") then
    match re_search ext pat_diagnosis context with
    | Some g =>
        u "Based on the documents, the diagnosis is " ++ strip g ++ u "."
    | None => preview_answer context
    end
  else if has (u "sum assured") || has (u "coverage") then
    match re_search ext pat_sum_assured context with
    | Some g =>
        u "Based on the documents, the sum assured is " ++ [RUPEE] ++ g
          ++ u "."
    | None => preview_answer context
    end
  else if has (u "patient") || has (u "name") then
    match re_search ext pat_patient context with
    | Some g =>
        u "Based on the documents, the patient name is " ++ strip g ++ u "."
    | None => preview_answer context
    end
  else if has (u "summarize") || has (u "summary") then
    match summary_parts context with
    | [] => preview_answer context
    | parts =>
        u "Based on the documents, here's a summary:" ++ [NL]
          ++ join [NL] parts
    end
  else preview_answer context.

Variable self : RAGEngine.

(** The generative call selected at start-up, with the call it makes. *)
Definition generate (prompt : str) : result str * list event :=
  match llm_type self with
  | openai => (_generate_with_openai prompt, [OpenAICall prompt])
  | ollama => (_generate_with_ollama prompt, [OllamaCall prompt])
  end.

(** [_generate_answer]: [except Exception] turns every failure of the
    generative call into the fallback answer. *)
Definition _generate_answer (question context : str) : str * list event :=
  let prompt := _create_prompt question context in
  match generate prompt with
  | (Ok a, evs) => (a, evs)
  | (Raise _, evs) => (_generate_fallback_answer question context, evs)
  end.

Definition source_of (r : Meta * Q) : SourceChunk :=
  {| src_text := m_text (fst r);
     src_doc_id := m_doc_id (fst r);
     src_filename := m_filename (fst r);
     src_doc_type := m_doc_type (fst r);
     src_page_number := m_page_number (fst r);
     similarity_score := snd r |}.

(** The context block: one labelled entry per retrieved chunk. *)
Definition context_of (search_results : list (Meta * Q)) : str :=
  join [NL; NL]
    (imap (fun i chunk =>
             u "[Source " ++ str_of_nat (i + 1) ++ u "]: " ++ chunk)
          (map (fun r => m_text (fst r)) search_results)).

(** [min(avg_similarity * 1.2, 1.0)] *)
Definition confidence_of (srcs : list SourceChunk) : Q :=
  let total := fold_left Qplus (map similarity_score srcs) 0%Q in
  let avg_similarity := (total / inject_Z (Z.of_nat (length srcs)))%Q in
  let scaled := (avg_similarity * (12 # 10))%Q in
  if Qle_bool scaled 1 then scaled else 1%Q.

Definition insufficient_answer : str :=
  u "I don't have enough information to answer this question. Please upload relevant documents first.".

(** [query]: the response or the exception, and the calls made. *)
Definition query (question : str) (doc_ids : option (list str))
    (top_k : Z) : result QueryResponse * list event :=
  let question_embedding := embed_text ext question in
  let embedded := [EmbedCall question] in
  match search (vector_store self) question_embedding top_k doc_ids with
  | Raise e => (Raise e, embedded)
  | Ok search_results =>
      if negb (truthy search_results) then
        (Ok (mkResponse question insufficient_answer [] (Some 0%Q)),
         embedded)
      else
        let srcs := map source_of search_results in
        let context := context_of search_results in
        let '(ans, evs) := _generate_answer question context in
        (Ok (mkResponse question ans srcs (Some (confidence_of srcs))),
         embedded ++ evs)
  end.

End Engine.

End RAG.

(** ** backend/main.py: the [/api/query] handler *)

Module Api.
Import RAG.

Record QueryRequest := mkRequest {
  req_question : str;
  req_doc_ids : option (list str);
  req_top_k : Z
}.

Definition query_documents (ext : Externals) (rag_engine : RAGEngine)
    (request : QueryRequest) : result QueryResponse * list event :=
  if negb (truthy (strip (req_question request))) then
    (Raise (HTTPException 400 (u "Question cannot be empty")), [])
  else
    query ext rag_engine (req_question request) (req_doc_ids request)
          (req_top_k request).

End Api.

(** ** backend/chunker.py: [get_chunk_context] *)

Module Context.
Import Chunker.

(** Python's reading of a slice bound on a list of length [len]. *)
Definition slice_bound (len : nat) (i : Z) : nat :=
  if i <? 0 then Z.to_nat (Z.max (Z.of_nat len + i) 0)
  else Nat.min (Z.to_nat i) len.

(** [l[start:stop]] *)
Definition slice {A} (start stop : Z) (l : list A) : list A :=
  let a := slice_bound (length l) start in
  let b := slice_bound (length l) stop in
  take (b - a) (drop a l).

(** [doc_chunks.sort(key=lambda x: x.chunk_index)]: the sort is stable, a
    chunk goes before the first chunk of a larger index. *)
Fixpoint insert_by_index (c : ChunkMetadata) (l : list ChunkMetadata)
  : list ChunkMetadata :=
  match l with
  | [] => [c]
  | x :: l' =>
      if Nat.leb (chunk_index c) (chunk_index x) then c :: x :: l'
      else x :: insert_by_index c l'
  end.

Definition sort_by_index (l : list ChunkMetadata) : list ChunkMetadata :=
  fold_right insert_by_index [] l.

(** [next(i for i, c in enumerate(l) if c.chunk_id == id)]; [None] stands
    for [StopIteration]. *)
Fixpoint first_with_id (id : str) (l : list ChunkMetadata) : option nat :=
  match l with
  | [] => None
  | c :: l' =>
      if bool_decide (chunk_id c = id) then Some 0%nat
      else option_map S (first_with_id id l')
  end.

Definition get_chunk_context (chunk : ChunkMetadata)
    (all_chunks : list ChunkMetadata) (context_size : Z) : str :=
  let doc_chunks :=
    sort_by_index (filter (fun c => doc_id c = doc_id chunk) all_chunks) in
  match first_with_id (chunk_id chunk) doc_chunks with
  | None => text chunk
  | Some target_idx =>
      let start_idx := Z.max 0 (Z.of_nat target_idx - context_size) in
      let end_idx :=
        Z.min (Z.of_nat (length doc_chunks))
              (Z.of_nat target_idx + context_size + 1) in
      let context_chunks := slice start_idx end_idx doc_chunks in
      join [SP] (map text context_chunks)
  end.

End Context.

(** ** Predicates used to state further properties of the chunker *)

Module ChunkerProps2.
Import Chunker.

(** All characters are whitespace. *)
Definition blank (s : str) : Prop := Forall (fun c => isspace c = true) s.

(** The first and the last character are not whitespace. *)
Definition trimmed (s : str) : Prop :=
  match s with
  | [] => False
  | c :: _ => isspace c = false
  end /\
  match rev s with
  | [] => False
  | c :: _ => isspace c = false
  end.

(** A closed accumulator: the overlap text it starts with, if any, and the
    sentences that follow. *)
Definition group := (list str * list str)%type.

Definition group_text (g : group) : str := join [SP] (fst g ++ snd g).

(** The state of the loop after the sentences [seen]: the groups closed so
    far and the open accumulator, with the word count the loop keeps. *)
Definition grouped (self : TextChunker) (st : loop_state) (seen : list str)
    (gs : list group) (seed run : list str) : Prop :=
  map text (chunks st) = map group_text gs /\
  current_chunk st = seed ++ run /\
  seen = concat (map snd gs) ++ run /\
  (run = [] -> seed = []) /\
  (length seed <= 1)%nat /\
  (chunk_overlap self <= 0 -> seed = []) /\
  current_word_count st = Z.of_nat (length (split (join [SP] (seed ++ run)))) /\
  (current_word_count st <= chunk_size self \/ (length run <= 1)%nat).

(** What holds of every closed group. *)
Definition group_ok (self : TextChunker) (g : group) : Prop :=
  snd g <> [] /\
  (length (fst g) <= 1)%nat /\
  (chunk_overlap self <= 0 -> fst g = []) /\
  (Z.of_nat (length (split (group_text g))) <= chunk_size self
   \/ length (snd g) = 1%nat).

End ChunkerProps2.

(** ** backend/vector_store.py: [get_stats] *)

Module Stats.
Import Faiss Store.

(** [len(set(m['doc_id'] for m in self.metadata))]: the number of distinct
    document ids. *)
Definition total_documents (self : VectorStore) : nat :=
  length (remove_dups (map m_doc_id (metadata self))).

(** The dict [get_stats] returns; [index_size] is what
    [self.index_path.stat().st_size] gives when the file exists. *)
Record stats := mkStats {
  st_total_chunks : nat;
  st_total_documents : nat;
  st_embedding_dim : nat;
  st_index_size_mb : Q
}.

Definition get_stats (self : VectorStore) (index_size : option N) : stats :=
  {| st_total_chunks := ntotal (index self);
     st_total_documents := total_documents self;
     st_embedding_dim := embedding_dim self;
     st_index_size_mb :=
       match index_size with
       | Some size => (inject_Z (Z.of_N size) / inject_Z (1024 * 1024))%Q
       | None => 0%Q
       end |}.

(** The rows and the metadata of a store, entry by entry. *)
Definition entries (self : VectorStore) : list (list Q * Meta) :=
  combine (xb (index self)) (metadata self).

End Stats.

(** ** Sample inputs *)

Module Samples.
Import Chunker Py.

(** A page of one hundred words and no sentence boundary. *)
Definition hundred_words : str := join [SP] (repeat (u "word") 100).

(** A document of two such pages. *)
Definition two_pages : list page_info :=
  [mkPage 1 hundred_words; mkPage 2 hundred_words].

(** A chunker with a budget of three words, one word of overlap and a floor
    of three words. *)
Definition tiny_chunker : TextChunker := mkChunker 3 1 3.

(** Three sentences of three, one and three words. *)
Definition three_sentences : str := u "A b c. D. E f g.".

(** A store of dimension 2 with one chunk of document [a] at the origin and
    one chunk of document [b] at (3, 4). *)
Definition sample_meta (doc : str) : Store.Meta :=
  Store.mkMeta (doc ++ u "_chunk_0") doc (u "policy") (u "f.pdf") None 0
               (u "Policy Number: ABC-1234-XY-567890").

Definition sample_store : Store.VectorStore :=
  Store.mkStore 2 (Faiss.mkIndex 2 [[0%Q; 0%Q]; [3%Q; 4%Q]])
                [sample_meta (u "a"); sample_meta (u "b")].

(** Three vectors of width 2, and two chunks. *)
Definition three_vectors : Faiss.ndarray :=
  Faiss.mkArray 2 [[0%Q; 0%Q]; [1%Q; 0%Q]; [0%Q; 1%Q]].

Definition two_chunks : list ChunkMetadata :=
  [mkChunk (u "d_chunk_0") (u "d") (u "policy") (u "f.pdf") None 0 (u "x");
   mkChunk (u "d_chunk_1") (u "d") (u "policy") (u "f.pdf") None 1 (u "y")].

(** Collaborators for which both generative services are unreachable and
    no pattern matches. *)
Definition ascii_lower (s : str) : str :=
  map (fun c => if is_AZ c then (c + 32)%N else c) s.

Definition offline : RAG.Externals :=
  RAG.mkExternals
    (fun _ => [0%Q; 0%Q])
    (fun _ => Raise (Exception (u "connection refused")))
    (fun _ => Raise (Exception (u "connection refused")))
    (fun _ _ => None)
    ascii_lower.

Definition sample_engine : RAG.RAGEngine :=
  RAG.mkEngine sample_store RAG.ollama.

Definition blank_request : Api.QueryRequest :=
  Api.mkRequest (u "   ") None 5.

End Samples.

(** ** Further sample inputs *)

Module Samples2.
Import Chunker Py.

(** A chunker without overlap and without floor. *)
Definition plain_chunker : TextChunker := mkChunker 3 0 1.

(** The first chunk the tiny chunker emits for the three sentences. *)
Definition first_tiny_chunk : ChunkMetadata :=
  mkChunk (u "d1_chunk_0") (u "d1") (u "t") (u "f") None 0 (u "A b c.").

(** A chunk of another document. *)
Definition foreign_chunk : ChunkMetadata :=
  mkChunk (u "zz_chunk_0") (u "zz") (u "t") (u "f") None 0 (u "Other text.").

(** Two short pages and the chunk each of them gives with the plain
    chunker. *)
Definition two_small_pages : list page_info :=
  [mkPage 1 (u "A b c."); mkPage 2 (u "D e f.")].

Definition first_page_chunk : ChunkMetadata :=
  mkChunk (u "d1_chunk_0") (u "d1") (u "t") (u "f") (Some 1) 0 (u "A b c.").

Definition second_page_chunk : ChunkMetadata :=
  mkChunk (u "d1_chunk_0") (u "d1") (u "t") (u "f") (Some 2) 0 (u "D e f.").

End Samples2.
(** ** Facts about [split] and [join] *)

Module PyStrFacts.

Lemma split_aux_app_space cur a sp b :
  isspace sp = true ->
  split_aux cur (a ++ sp :: b) = split_aux cur a ++ split b.
Proof.
  intros Hsp. revert cur.
  induction a as [|c a IH]; intros cur; simpl.
  - rewrite Hsp. destruct cur; reflexivity.
  - destruct (isspace c).
    + destruct cur; rewrite IH; reflexivity.
    + apply IH.
Qed.

Lemma split_app_space a b :
  split (a ++ SP :: b) = split a ++ split b.
Proof. apply split_aux_app_space. reflexivity. Qed.

Lemma split_join (l : list str) :
  split (join [SP] l) = concat (map split l).
Proof.
  induction l as [|x l IH]; [reflexivity|].
  destruct l as [|y l].
  - simpl. rewrite app_nil_r. reflexivity.
  - change (join [SP] (x :: y :: l)) with (x ++ SP :: join [SP] (y :: l)).
    rewrite split_app_space, IH. reflexivity.
Qed.

Lemma split_aux_nospace cur w :
  Forall (fun c => isspace c = false) w ->
  split_aux cur w = split_aux (rev w ++ cur) [].
Proof.
  intros Hw. revert cur.
  induction Hw as [|c w Hc _ IH]; intros cur; simpl; [reflexivity|].
  rewrite Hc, IH, <- app_assoc. reflexivity.
Qed.

Lemma split_word w : is_word w -> split w = [w].
Proof.
  intros [Hne Hw]. unfold split.
  rewrite (split_aux_nospace _ _ Hw), app_nil_r. simpl.
  destruct (rev w) eqn:E.
  - apply (f_equal (@rev N)) in E. rewrite rev_involutive in E.
    simpl in E. contradiction.
  - rewrite <- E, rev_involutive. reflexivity.
Qed.

Lemma split_aux_words cur s :
  Forall (fun c => isspace c = false) cur ->
  Forall is_word (split_aux cur s).
Proof.
  assert (Hrev : forall cur : str,
             cur <> [] -> Forall (fun c => isspace c = false) cur ->
             is_word (rev cur)).
  { intros c0 Hne Hc. split.
    - intros E. apply Hne. apply (f_equal (@rev N)) in E.
      rewrite rev_involutive in E. exact E.
    - apply Forall_forall. intros x Hx. apply in_rev in Hx.
      rewrite Forall_forall in Hc. auto. }
  revert cur. induction s as [|c s IH]; intros cur Hcur; simpl.
  - destruct cur as [|c0 cur]; [constructor|].
    constructor; [|constructor]. apply Hrev; [discriminate|assumption].
  - destruct (isspace c) eqn:Ec.
    + destruct cur as [|c0 cur]; [apply IH; constructor|].
      constructor; [apply Hrev; [discriminate|assumption]|].
      apply IH. constructor.
    + apply IH. constructor; assumption.
Qed.

Lemma split_words s : Forall is_word (split s).
Proof. apply split_aux_words. constructor. Qed.

Lemma split_join_words (ws : list str) :
  Forall is_word ws -> split (join [SP] ws) = ws.
Proof.
  intros Hws. rewrite split_join.
  induction Hws as [|w ws Hw _ IH]; [reflexivity|].
  simpl. rewrite (split_word _ Hw), IH. reflexivity.
Qed.

Lemma slice_from_Forall {A} (P : A -> Prop) k (l : list A) :
  Forall P l -> Forall P (slice_from k l).
Proof.
  intros H. unfold slice_from. destruct (k <? 0); apply Forall_drop, H.
Qed.

(** The words of the overlap text are the words it was joined from. *)
Lemma split_overlap_text k (w : str) :
  split (join [SP] (slice_from k (split w))) = slice_from k (split w).
Proof. apply split_join_words, slice_from_Forall, split_words. Qed.

Lemma filter_concat {A} (P : A -> Prop) `{forall x, Decision (P x)}
    (ls : list (list A)) :
  filter P (concat ls) = concat (map (filter P) ls).
Proof.
  induction ls as [|l ls IH]; [reflexivity|].
  simpl. rewrite list.filter_app, IH. reflexivity.
Qed.

Lemma filter_all {A} (P : A -> Prop) `{forall x, Decision (P x)} (l : list A) :
  Forall P l -> filter P l = l.
Proof.
  induction 1 as [|x l Hx _ IH]; [reflexivity|].
  rewrite filter_cons_True by exact Hx. rewrite IH. reflexivity.
Qed.

End PyStrFacts.

(** ** Properties of the chunker *)

Module ChunkerFacts.
Import Chunker ChunkerProps PyStrFacts.

(** An invariant of the loop carries over to the end of the loop. *)
Lemma run_loop_ind self doc fname dtype page (P : loop_state -> Prop) :
  (forall st s, P st -> P (loop_body self doc fname dtype page st s)) ->
  forall ss st, P st -> P (run_loop self doc fname dtype page st ss).
Proof.
  intros Hstep ss. induction ss as [|s ss IH]; intros st Hst; simpl; auto.
Qed.

(** The same for a relation between two runs over the same sentences. *)
Lemma run_loop_ind2 self doc fname dtype page self0 doc0 fname0 dtype0 page0
    (R : loop_state -> loop_state -> Prop) :
  (forall st st0 s, R st st0 ->
     R (loop_body self doc fname dtype page st s)
       (loop_body self0 doc0 fname0 dtype0 page0 st0 s)) ->
  forall ss st st0, R st st0 ->
    R (run_loop self doc fname dtype page st ss)
      (run_loop self0 doc0 fname0 dtype0 page0 st0 ss).
Proof.
  intros Hstep ss. induction ss as [|s ss IH]; intros st st0 H; simpl; auto.
Qed.

Section Floor.
Variable self : TextChunker.
Variables (doc fname dtype : str) (page : option Z).

Lemma meets_floor_above idx t :
  meets_floor self t = true ->
  above_floor self (make_chunk doc fname dtype page idx t).
Proof. unfold meets_floor, above_floor. simpl. intros H. apply Z.leb_le, H. Qed.

Lemma loop_body_floor st s :
  Forall (above_floor self) (chunks st) ->
  Forall (above_floor self) (chunks (loop_body self doc fname dtype page st s)).
Proof.
  intros H. unfold loop_body.
  destruct (_ && _); [|exact H].
  destruct (restart _ _ _ _) as [cur' count'].
  destruct (meets_floor self _) eqn:E; simpl; [|exact H].
  apply Forall_app. split; [exact H|].
  constructor; [|constructor]. apply meets_floor_above, E.
Qed.

Lemma flush_floor st :
  Forall (above_floor self) (chunks st) ->
  Forall (above_floor self) (flush self doc fname dtype page st).
Proof.
  intros H. unfold flush.
  destruct (truthy _); [|exact H].
  destruct (meets_floor self _) eqn:E; [|exact H].
  apply Forall_app. split; [exact H|].
  constructor; [|constructor]. apply meets_floor_above, E.
Qed.

Lemma _chunk_text_floor txt :
  Forall (above_floor self) (_chunk_text self doc fname dtype page txt).
Proof.
  unfold _chunk_text, _chunk_sentences. apply flush_floor.
  apply (run_loop_ind self doc fname dtype page
           (fun st => Forall (above_floor self) (chunks st))).
  - intros st s. apply loop_body_floor.
  - constructor.
Qed.
End Floor.

(** *** The emitted chunks against the closed accumulators *)

Section Windows.
Variable self : TextChunker.
Variables (doc fname dtype : str) (page : option Z).
Variables (doc0 fname0 dtype0 : str) (page0 : option Z).

Lemma meets_floor_without t : meets_floor (without_floor self) t = true.
Proof. unfold meets_floor. simpl. apply Z.leb_le. lia. Qed.

Lemma restart_without cur s wc :
  restart (without_floor self) cur s wc = restart self cur s wc.
Proof. reflexivity. Qed.

Lemma emit_rel (cs cs0 : list ChunkMetadata) i i0 t :
  map text cs = filter (fun t => meets_floor self t = true) (map text cs0) ->
  map text (if meets_floor self t
            then cs ++ [make_chunk doc fname dtype page i t] else cs)
  = filter (fun t => meets_floor self t = true)
      (map text (cs0 ++ [make_chunk doc0 fname0 dtype0 page0 i0 t])).
Proof.
  intros H. rewrite map_app, list.filter_app. simpl.
  destruct (meets_floor self t) eqn:E.
  - rewrite map_app, H. simpl.
    rewrite filter_cons_True by exact E. reflexivity.
  - rewrite filter_cons_False by (rewrite E; discriminate).
    rewrite filter_nil, app_nil_r. exact H.
Qed.

Lemma loop_body_rel st st0 s :
  windows_rel self st st0 ->
  windows_rel self (loop_body self doc fname dtype page st s)
              (loop_body (without_floor self) doc0 fname0 dtype0 page0 st0 s).
Proof.
  intros (Hc & Hn & Ht). unfold loop_body.
  rewrite meets_floor_without, restart_without, <- Hc, <- Hn.
  change (chunk_size (without_floor self)) with (chunk_size self).
  destruct (_ && _).
  - destruct (restart self _ _ _) as [cur' count'].
    split; [reflexivity|]. split; [reflexivity|]. simpl.
    apply emit_rel, Ht.
  - split; [simpl; congruence|]. split; [simpl; congruence|]. exact Ht.
Qed.

Lemma flush_rel st st0 :
  windows_rel self st st0 ->
  map text (flush self doc fname dtype page st)
  = filter (fun t => meets_floor self t = true)
      (map text (flush (without_floor self) doc0 fname0 dtype0 page0 st0)).
Proof.
  intros (Hc & Hn & Ht). unfold flush.
  rewrite meets_floor_without, <- Hc.
  destruct (truthy _); [|exact Ht].
  apply emit_rel, Ht.
Qed.

Lemma _chunk_text_windows txt :
  map text (_chunk_text self doc fname dtype page txt)
  = filter (fun t => meets_floor self t = true)
      (map text (_chunk_text (without_floor self) doc0 fname0 dtype0 page0 txt)).
Proof.
  unfold _chunk_text, _chunk_sentences. apply flush_rel.
  apply (run_loop_ind2 self doc fname dtype page
           (without_floor self) doc0 fname0 dtype0 page0 (windows_rel self)).
  - intros st st0 s. apply loop_body_rel.
  - repeat split.
Qed.
End Windows.

(** *** Overlap between consecutive closed accumulators *)

Lemma chained_nil k : chained k [].
Proof. intros l1 w1 w2 l2 H. destruct l1; discriminate. Qed.

Lemma chained_snoc k ws w' :
  chained k ws ->
  (forall l w, ws = l ++ [w] -> overlaps k w w') ->
  chained k (ws ++ [w']).
Proof.
  intros Hc Hlast l1 w1 w2 l2 E.
  destruct l2 as [|x l2 _] using rev_ind.
  - change (l1 ++ [w1; w2]) with (l1 ++ [w1] ++ [w2]) in E.
    rewrite app_assoc in E. apply app_inj_tail in E as [E1 E2].
    subst w'. apply (Hlast l1). exact E1.
  - change (l1 ++ w1 :: w2 :: l2 ++ [x])
      with (l1 ++ (w1 :: w2 :: l2) ++ [x]) in E.
    rewrite app_assoc in E. apply app_inj_tail in E as [E1 _].
    apply (Hc l1 w1 w2 l2 E1).
Qed.

Section Overlap.
Variable self : TextChunker.
Variables (doc fname dtype : str) (page : option Z).
Hypothesis overlap_pos : 0 < chunk_overlap self.

Local Abbreviation k := (chunk_overlap self).
Local Abbreviation self0 := (without_floor self).

Lemma seeded_overlaps st l w :
  seeded k st -> map text (chunks st) = l ++ [w] ->
  overlaps k w (join [SP] (current_chunk st)).
Proof.
  intros Hs E. destruct (Hs l w E) as [rest ->].
  unfold overlaps. rewrite split_join. simpl.
  rewrite split_overlap_text. apply prefix_app_r. reflexivity.
Qed.

Lemma close_chained st idx :
  overlap_inv k st ->
  chained k (map text (chunks st ++
     [make_chunk doc fname dtype page idx (join [SP] (current_chunk st))])).
Proof.
  intros [Hc Hs]. rewrite map_app. simpl.
  apply chained_snoc; [exact Hc|].
  intros l w E. apply (seeded_overlaps st l w Hs E).
Qed.

Lemma loop_body_overlap st s :
  overlap_inv k st ->
  overlap_inv k (loop_body self0 doc fname dtype page st s).
Proof.
  intros Hinv. unfold loop_body.
  destruct (_ && _) eqn:Hcond.
  - apply andb_true_iff in Hcond as [_ Hne].
    assert (Hlen : (0 <? Z.of_nat (length (current_chunk st))) = true).
    { destruct (current_chunk st); [discriminate|reflexivity]. }
    assert (Hk : (0 <? chunk_overlap self0) = true).
    { apply Z.ltb_lt. exact overlap_pos. }
    unfold restart. rewrite Hk, Hlen.
    rewrite meets_floor_without.
    cbv beta iota zeta delta [andb]. split.
    + cbn [chunks]. apply close_chained, Hinv.
    + intros l w E. cbn [chunks] in E. rewrite map_app in E.
      apply app_inj_tail in E as [_ <-]. cbn [current_chunk]. eauto.
  - destruct Hinv as [Hc Hs]. split; [exact Hc|].
    intros l w E. simpl in E. destruct (Hs l w E) as [rest Hrest].
    simpl. rewrite Hrest. eauto.
Qed.

Lemma flush_overlap st :
  overlap_inv k st ->
  chained k (map text (flush self0 doc fname dtype page st)).
Proof.
  intros Hinv. unfold flush.
  destruct (truthy _); [|apply Hinv].
  rewrite meets_floor_without.
  apply close_chained, Hinv.
Qed.

Lemma _chunk_text_chained txt :
  chained k (map text (_chunk_text self0 doc fname dtype page txt)).
Proof.
  unfold _chunk_text, _chunk_sentences. apply flush_overlap.
  apply (run_loop_ind self0 doc fname dtype page (overlap_inv k)).
  - intros st s. apply loop_body_overlap.
  - split; [apply chained_nil|].
    intros l w E. destruct l; discriminate.
Qed.
End Overlap.

(** *** Numbering inside one [_chunk_text] call *)

Section Numbering.
Variable self : TextChunker.
Variables (doc fname dtype : str) (page : option Z).

Lemma numbered_snoc cs n t :
  numbered doc cs n ->
  numbered doc (cs ++ [make_chunk doc fname dtype page n t]) (S n).
Proof.
  intros [Hi Hid]. split.
  - rewrite map_app, Hi, seq_S. reflexivity.
  - apply Forall_app. split; [exact Hid|].
    constructor; [reflexivity|constructor].
Qed.

Lemma loop_body_numbered st s :
  numbered doc (chunks st) (next_index st) ->
  let st' := loop_body self doc fname dtype page st s in
  numbered doc (chunks st') (next_index st').
Proof.
  intros H. unfold loop_body.
  destruct (_ && _); [|exact H].
  destruct (restart _ _ _ _) as [cur' count'].
  destruct (meets_floor self _); simpl; [|exact H].
  apply numbered_snoc, H.
Qed.

Lemma _chunk_text_numbered txt :
  let cs := _chunk_text self doc fname dtype page txt in
  numbered doc cs (length cs).
Proof.
  unfold _chunk_text, _chunk_sentences.
  set (st := run_loop _ _ _ _ _ _ _).
  assert (H : numbered doc (chunks st) (next_index st)).
  { apply (run_loop_ind self doc fname dtype page
             (fun st => numbered doc (chunks st) (next_index st))).
    - intros st0 s. apply loop_body_numbered.
    - split; [reflexivity|constructor]. }
  assert (Hlen : length (chunks st) = next_index st).
  { destruct H as [H _]. apply (f_equal (@length nat)) in H.
    rewrite length_map, length_seq in H. exact H. }
  unfold flush.
  destruct (truthy _); [|rewrite Hlen; exact H].
  destruct (meets_floor self _); [|rewrite Hlen; exact H].
  simpl. rewrite length_app, Hlen. simpl.
  replace (next_index st + 1)%nat with (S (next_index st)) by lia.
  apply numbered_snoc, H.
Qed.
End Numbering.

End ChunkerFacts.

(** ** The chunker's claims *)

Module ChunkerClaims.
Import Chunker ChunkerProps PyStrFacts ChunkerFacts Samples.

(** C1 (the code departs from it).  With the default configuration, a
    document of two pages of one hundred words each yields two chunks that
    both carry the id [d1_chunk_0] and the index 0: the counter of
    [_chunk_text] restarts on every page, so neither the id suffix nor
    [chunk_index] is unique within the document. *)
Theorem C1_paged_ids_collide :
  map (fun c => (chunk_id c, chunk_index c, page_number c))
      (chunk_document default_chunker [] (u "d1") (u "a.pdf") (u "policy")
                      (Some two_pages))
  = [(u "d1_chunk_0", 0%nat, Some 1); (u "d1_chunk_0", 0%nat, Some 2)].
Proof. vm_compute. reflexivity. Qed.

(** Without pages the numbering is what C1 describes: the chunks of one
    [_chunk_text] call carry the indices [0 .. n-1] in emission order and
    every id is the document id followed by [_chunk_] and the index. *)
Lemma unpaged_ids_numbered self txt doc fname dtype :
  let cs := chunk_document self txt doc fname dtype None in
  map chunk_index cs = seq 0 (length cs) /\
  Forall (fun c => chunk_id c
                   = doc ++ u "_chunk_" ++ str_of_nat (chunk_index c)) cs.
Proof. apply _chunk_text_numbered. Qed.

(** On the paged path the first chunk of every page that emits one has
    index 0, so two such pages repeat an id and an index. *)
Lemma first_chunk_index_zero self doc fname dtype page txt c cs :
  _chunk_text self doc fname dtype page txt = c :: cs ->
  chunk_index c = 0%nat /\ chunk_id c = doc ++ u "_chunk_0".
Proof.
  intros E.
  destruct (_chunk_text_numbered self doc fname dtype page txt) as [Hi Hid].
  rewrite E in Hi, Hid. simpl in Hi. injection Hi as Hi _.
  inversion Hid as [|? ? Hc _]; subst.
  split; [exact Hi|]. rewrite Hc, Hi. reflexivity.
Qed.

Lemma paged_ids_repeat self txt doc fname dtype p1 p2 c1 r1 c2 r2 :
  _chunk_text self doc fname dtype (Some (pg_number p1)) (pg_text p1)
  = c1 :: r1 ->
  _chunk_text self doc fname dtype (Some (pg_number p2)) (pg_text p2)
  = c2 :: r2 ->
  chunk_document self txt doc fname dtype (Some [p1; p2])
  = (c1 :: r1) ++ (c2 :: r2)
  /\ chunk_id c1 = chunk_id c2 /\ chunk_index c1 = chunk_index c2.
Proof.
  intros E1 E2. split.
  - unfold chunk_document. simpl. rewrite E1, E2, app_nil_r. reflexivity.
  - apply first_chunk_index_zero in E1 as [Hi1 Hc1].
    apply first_chunk_index_zero in E2 as [Hi2 Hc2].
    split; congruence.
Qed.

(** C2.  Every chunk [chunk_document] emits has at least [min_chunk_size]
    words, and the emitted texts are exactly the accumulators the loop closes
    (the chunks of the same run with the floor at 0) that meet the floor, in
    order: an accumulator below the floor, the final one included, is left
    out and changes nothing else. *)
Theorem C2_floor_and_drop self txt doc fname dtype pages :
  Forall (fun c => min_chunk_size self <= Z.of_nat (length (split (text c))))
         (chunk_document self txt doc fname dtype pages)
  /\ map text (chunk_document self txt doc fname dtype pages)
     = filter (fun t => meets_floor self t = true)
         (map text (chunk_document (without_floor self) txt doc fname dtype
                                   pages)).
Proof.
  split.
  - unfold chunk_document. destruct pages as [[|p ps]|];
      try apply _chunk_text_floor.
    apply Forall_concat, Forall_forall. intros cs Hcs.
    apply in_map_iff in Hcs as (pg & <- & _). apply _chunk_text_floor.
  - unfold chunk_document. destruct pages as [[|p ps]|];
      try apply _chunk_text_windows.
    rewrite !concat_map, filter_concat, !map_map. f_equal.
    apply map_ext. intros pg. apply _chunk_text_windows.
Qed.

(** C3 as stated fails: with budget 3, overlap 1 and floor 3, the text
    [A b c. D. E f g.] yields the chunks [A b c.] and [D. E f g.]; the
    accumulator [c. D.] closed between them is below the floor and dropped,
    so the second chunk starts with [D.] and not with [c.]. *)
Lemma C3_counterexample :
  ~ (forall self txt doc fname dtype pages l1 c1 c2 l2,
       0 < chunk_overlap self ->
       chunk_document self txt doc fname dtype pages = l1 ++ c1 :: c2 :: l2 ->
       slice_from (- chunk_overlap self) (split (text c1))
         `prefix_of` split (text c2)).
Proof.
  intros H.
  specialize (H tiny_chunker three_sentences (u "d1") (u "f") (u "t") None
                [] (mkChunk (u "d1_chunk_0") (u "d1") (u "t") (u "f") None 0
                            (u "A b c."))
                (mkChunk (u "d1_chunk_1") (u "d1") (u "t") (u "f") None 1
                         (u "D. E f g.")) []).
  assert (Hk : 0 < chunk_overlap tiny_chunker) by (simpl; lia).
  specialize (H Hk eq_refl).
  destruct H as [rest Hrest]. vm_compute in Hrest. discriminate.
Qed.

(** C3, amended.  With a positive overlap, inside one [_chunk_text] call
    every closed accumulator, emitted or dropped, starts with the last
    [chunk_overlap] words (all words if there are fewer) of the accumulator
    closed before it; the emitted chunks are the closed accumulators that
    meet the floor; so two consecutive emitted chunks overlap whenever no
    accumulator of the call is below the floor. *)
Theorem C3_overlap_of_closed_accumulators self doc fname dtype page txt :
  0 < chunk_overlap self ->
  let k := chunk_overlap self in
  let emitted := _chunk_text self doc fname dtype page txt in
  (forall l1 w1 w2 l2,
      closed_windows self txt = l1 ++ w1 :: w2 :: l2 ->
      slice_from (- k) (split w1) `prefix_of` split w2)
  /\ map text emitted
     = filter (fun t => meets_floor self t = true) (closed_windows self txt)
  /\ (Forall (fun t => meets_floor self t = true) (closed_windows self txt) ->
      forall l1 c1 c2 l2,
        emitted = l1 ++ c1 :: c2 :: l2 ->
        slice_from (- k) (split (text c1)) `prefix_of` split (text c2)).
Proof.
  intros Hk k emitted.
  assert (Hchain : chained k (closed_windows self txt)).
  { apply _chunk_text_chained, Hk. }
  assert (Hfilter : map text emitted
            = filter (fun t => meets_floor self t = true)
                (closed_windows self txt)).
  { apply _chunk_text_windows. }
  split; [exact Hchain|]. split; [exact Hfilter|].
  intros Hall l1 c1 c2 l2 E.
  rewrite (filter_all _ _ Hall) in Hfilter.
  apply (Hchain (map text l1) (text c1) (text c2) (map text l2)).
  rewrite <- Hfilter, E, map_app. reflexivity.
Qed.

Lemma C3_overlap_witness :
  0 < chunk_overlap (mkChunker 3 1 1) /\
  map text (_chunk_text (mkChunker 3 1 1) (u "d1") (u "f") (u "t") None
                        three_sentences)
  = filter (fun t => meets_floor (mkChunker 3 1 1) t = true)
      (closed_windows (mkChunker 3 1 1) three_sentences).
Proof.
  assert (Hk : 0 < chunk_overlap (mkChunker 3 1 1)) by (simpl; lia).
  split; [exact Hk|].
  exact (proj1 (proj2 (C3_overlap_of_closed_accumulators
                         (mkChunker 3 1 1) (u "d1") (u "f") (u "t") None
                         three_sentences Hk))).
Defined.

End ChunkerClaims.

(** ** Facts about the index model *)

Module FaissFacts.
Import Faiss Store.

Lemma square_nonneg (z : Q) : (0 <= z * z)%Q.
Proof.
  destruct (Qlt_le_dec z 0).
  - assert (E : (z * z == (- z) * (- z))%Q) by ring.
    rewrite E. apply Qmult_le_0_compat; lra.
  - apply Qmult_le_0_compat; lra.
Qed.

Lemma sqdist_nonneg (a b : list Q) : (0 <= sqdist a b)%Q.
Proof.
  unfold sqdist. induction (combine a b) as [|p l IH]; simpl; [lra|].
  pose proof (square_nonneg (fst p - snd p)). lra.
Qed.

Lemma similarity_bounds (dist : Q) :
  (0 <= dist)%Q ->
  (0 < similarity_of dist)%Q /\ (similarity_of dist <= 1)%Q.
Proof.
  intros H. unfold similarity_of, Qdiv. rewrite Qmult_1_l. split.
  - apply Qinv_lt_0_compat. lra.
  - apply Qle_shift_inv_r; lra.
Qed.


Lemma dist_le_trans a b c : dist_le a b -> dist_le b c -> dist_le a c.
Proof. unfold dist_le. apply Qle_trans. Qed.

Lemma insert_by_dist_In x p l :
  In x (insert_by_dist p l) <-> x = p \/ In x l.
Proof.
  induction l as [|q l IH]; simpl.
  - intuition.
  - destruct (Qle_bool (fst p) (fst q)); simpl; [intuition|].
    rewrite IH. intuition.
Qed.

Lemma sort_by_dist_In x l : In x (sort_by_dist l) <-> In x l.
Proof.
  induction l as [|p l IH]; simpl; [reflexivity|].
  rewrite insert_by_dist_In, IH. intuition.
Qed.

Lemma insert_by_dist_HdRel q p l :
  dist_le q p -> HdRel dist_le q l -> HdRel dist_le q (insert_by_dist p l).
Proof.
  intros Hqp Hq. destruct l as [|r l]; simpl.
  - constructor. exact Hqp.
  - destruct (Qle_bool (fst p) (fst r)); constructor.
    + exact Hqp.
    + inversion Hq. assumption.
Qed.

Lemma insert_by_dist_sorted p l :
  Sorted dist_le l -> Sorted dist_le (insert_by_dist p l).
Proof.
  induction 1 as [|q l Hl IH Hq]; simpl.
  - repeat constructor.
  - destruct (Qle_bool (fst p) (fst q)) eqn:E.
    + constructor; [constructor; assumption|].
      constructor. apply Qle_bool_iff, E.
    + constructor; [exact IH|].
      apply insert_by_dist_HdRel; [|exact Hq].
      unfold dist_le. destruct (Qlt_le_dec (fst q) (fst p)) as [Hlt|Hle].
      * apply Qlt_le_weak, Hlt.
      * apply Qle_bool_iff in Hle. congruence.
Qed.

Lemma sort_by_dist_sorted l : StronglySorted dist_le (sort_by_dist l).
Proof.
  apply Sorted_StronglySorted.
  - intros a b c. apply dist_le_trans.
  - induction l as [|p l IH]; simpl; [constructor|].
    apply insert_by_dist_sorted, IH.
Qed.

Lemma In_enumerate_from {A} (l : list A) n i (v : A) :
  In (i, v) (combine (seq n (length l)) l) ->
  (n <= i)%nat /\ l !! (i - n)%nat = Some v.
Proof.
  revert n. induction l as [|x l IH]; intros n; simpl; [tauto|].
  intros [E|H].
  - inversion E; subst. rewrite Nat.sub_diag. split; [lia|reflexivity].
  - apply IH in H as [Hle Hl]. split; [lia|].
    replace (i - n)%nat with (S (i - S n)) by lia. exact Hl.
Qed.

Lemma In_enumerate {A} (l : list A) i (v : A) :
  In (i, v) (enumerate l) -> l !! i = Some v.
Proof.
  intros H. apply In_enumerate_from in H as [_ H].
  rewrite Nat.sub_0_r in H. exact H.
Qed.

(** A ranked candidate is a stored row with its distance to the query. *)
Lemma ranked_In idx q c :
  In c (ranked idx q) ->
  exists v, xb idx !! snd c = Some v /\ fst c = sqdist q v.
Proof.
  unfold ranked. rewrite sort_by_dist_In, in_map_iff.
  intros ([i v] & <- & H). apply In_enumerate in H. simpl. eauto.
Qed.

Lemma ranked_nonneg idx q :
  Forall (fun c => (0 <= fst c)%Q) (ranked idx q).
Proof.
  apply Forall_forall. intros c Hc.
  apply ranked_In in Hc as (v & _ & ->). apply sqdist_nonneg.
Qed.

Lemma insert_by_dist_length p l :
  length (insert_by_dist p l) = S (length l).
Proof.
  induction l as [|q l IH]; simpl; [reflexivity|].
  destruct (Qle_bool _ _); simpl; [reflexivity|]. rewrite IH. reflexivity.
Qed.

Lemma sort_by_dist_length l : length (sort_by_dist l) = length l.
Proof.
  induction l as [|p l IH]; simpl; [reflexivity|].
  rewrite insert_by_dist_length, IH. reflexivity.
Qed.

Lemma ranked_length idx q : length (ranked idx q) = ntotal idx.
Proof.
  unfold ranked, ntotal, enumerate.
  rewrite sort_by_dist_length, length_map, length_combine, length_seq.
  lia.
Qed.

Lemma combine_fst_snd {A B} (l : list (A * B)) :
  combine (map fst l) (map snd l) = l.
Proof.
  induction l as [|[a b] l IH]; simpl; [reflexivity|].
  rewrite IH. reflexivity.
Qed.


(** What [index.search] returns when it returns. *)
Lemma search_Ok idx q k dists labels :
  Faiss.search idx q k = Ok (dists, labels) ->
  0 < k /\ length q = d idx /\
  combine dists labels = take (Z.to_nat k) (ranked idx q).
Proof.
  unfold Faiss.search.
  destruct (Nat.eqb (length q) (d idx)) eqn:Ed; [|discriminate].
  destruct (k <=? 0) eqn:Ek; [discriminate|]. simpl.
  intros E. inversion E; subst.
  split; [apply Z.leb_gt, Ek|].
  split; [apply Nat.eqb_eq, Ed|]. apply combine_fst_snd.
Qed.

(** [index.search] returns whenever the query has the index's width and
    [k] is positive. *)
Lemma search_total idx q k :
  length q = d idx -> 0 < k ->
  exists dists labels, Faiss.search idx q k = Ok (dists, labels).
Proof.
  intros Hq Hk. unfold Faiss.search.
  apply Nat.eqb_eq in Hq. rewrite Hq. simpl.
  apply Z.leb_gt in Hk. rewrite Hk. eauto.
Qed.

End FaissFacts.

(** ** Facts about the vector store *)

Module StoreFacts.
Import Faiss Store FaissFacts.

(** *** [search] *)

Lemma In_take {A} (x : A) n l : x ∈ take n l -> In x l.
Proof.
  intros H. apply elem_of_take in H as (i & Hi & _).
  apply list_elem_of_In, list_elem_of_lookup. eauto.
Qed.

(** The loop keeps the candidates that pass, in order, until [top_k] results
    are there. *)
Lemma search_loop_spec self top_k doc_ids pool results :
  Z.of_nat (length results) < top_k ->
  search_loop self top_k doc_ids pool results
  = results ++ take (Z.to_nat top_k - length results)
                    (omap (keep_candidate self doc_ids) pool).
Proof.
  revert results. induction pool as [|[dist idx] pool IH]; intros results Hlt.
  - simpl. rewrite take_nil, app_nil_r. reflexivity.
  - simpl. unfold keep_candidate at 1. simpl.
    destruct (metadata self !! idx) as [m|]; [|apply IH, Hlt].
    destruct (filtered_out doc_ids m); [apply IH, Hlt|].
    replace (Z.to_nat top_k - length results)%nat
      with (S (Z.to_nat top_k - S (length results))) by lia.
    rewrite firstn_cons.
    destruct (top_k <=? Z.of_nat (length (results ++ [(m, similarity_of dist)])))
      eqn:E.
    + apply Z.leb_le in E. rewrite length_app in E. simpl in E.
      replace (Z.to_nat top_k - S (length results))%nat with 0%nat by lia.
      reflexivity.
    + apply Z.leb_gt in E. rewrite IH by exact E.
      rewrite length_app. simpl. rewrite <- app_assoc. simpl.
      replace (length results + 1)%nat with (S (length results)) by lia.
      reflexivity.
Qed.

(** With an empty [doc_ids] list the loop runs as without a list. *)
Lemma search_loop_empty_ids self top_k pool results :
  search_loop self top_k (Some []) pool results
  = search_loop self top_k None pool results.
Proof.
  revert results. induction pool as [|[dist idx] pool IH]; intros results;
    [reflexivity|].
  simpl. destruct (metadata self !! idx) as [m|]; [|apply IH].
  destruct (top_k <=? _); [reflexivity|apply IH].
Qed.

(** What [search] returns on a populated index, when it returns. *)
Lemma search_populated self q top_k doc_ids res :
  ntotal (index self) <> 0%nat ->
  search self q top_k doc_ids = Ok res ->
  exists dists labels,
    Faiss.search (index self) q
      (Z.min (search_k top_k doc_ids) (Z.of_nat (ntotal (index self))))
    = Ok (dists, labels)
    /\ 0 < top_k
    /\ res = take (Z.to_nat top_k)
                  (omap (keep_candidate self doc_ids) (combine dists labels)).
Proof.
  intros Hn. unfold search.
  apply Nat.eqb_neq in Hn. rewrite Hn.
  destruct (Faiss.search _ _ _) as [[dists labels]|e] eqn:E; [|discriminate].
  intros H. inversion H; subst. exists dists, labels.
  split; [reflexivity|].
  assert (Hk : 0 < top_k).
  { apply search_Ok in E as [Hk _].
    unfold search_k in Hk. destruct doc_ids as [[|i ids]|]; lia. }
  split; [exact Hk|].
  rewrite search_loop_spec by (simpl; lia).
  simpl. rewrite Nat.sub_0_r. reflexivity.
Qed.

Lemma keep_candidate_Some self doc_ids c r :
  keep_candidate self doc_ids c = Some r ->
  metadata self !! snd c = Some (fst r) /\
  snd r = similarity_of (fst c) /\
  filtered_out doc_ids (fst r) = false.
Proof.
  unfold keep_candidate. destruct (metadata self !! snd c) as [m|]; [|discriminate].
  destruct (filtered_out doc_ids m) eqn:E; [discriminate|].
  intros H. inversion H; subst. auto.
Qed.


(** *** [delete_document] *)

(** Reading back the kept positions of [ms] from a list [xs] of the same
    length gives the entries of [xs] at those positions. *)
Lemma collect_kept {A B} (P : B -> Prop) `{forall b, Decision (P b)}
    `{forall p : nat * B, Decision (P (snd p))}
    `{forall p : A * B, Decision (P (snd p))}
    (read : list A -> nat -> result A)
    (Hread : forall l i a, l !! i = Some a -> read l i = Ok a)
    (ms : list B) :
  forall (xs pre : list A),
    length xs = length ms ->
    collect (map (read (pre ++ xs))
               (map fst (filter (fun p => P (snd p))
                          (combine (seq (length pre) (length ms)) ms))))
    = Ok (map fst (filter (fun p => P (snd p)) (combine xs ms))).
Proof.
  induction ms as [|m ms IH]; intros xs pre Hlen.
  - destruct xs; reflexivity.
  - destruct xs as [|x xs]; [discriminate|].
    simpl in Hlen. injection Hlen as Hlen.
    specialize (IH xs (pre ++ [x]) Hlen).
    rewrite length_app in IH. simpl in IH.
    replace (length pre + 1)%nat with (S (length pre)) in IH by lia.
    rewrite <- app_assoc in IH. simpl in IH.
    simpl. destruct (decide (P m)) as [Hm|Hm].
    + rewrite !filter_cons_True by exact Hm. simpl.
      rewrite (Hread _ _ x) by (apply list_lookup_middle; reflexivity).
      rewrite IH. reflexivity.
    + rewrite !filter_cons_False by exact Hm. exact IH.
Qed.

Lemma combine_kept {A B} (P : B -> Prop)
    `{forall p : A * B, Decision (P (snd p))}
    (xs : list A) (ms : list B) :
  combine (map fst (filter (fun p => P (snd p)) (combine xs ms)))
          (map snd (filter (fun p => P (snd p)) (combine xs ms)))
  = filter (fun p => P (snd p)) (combine xs ms).
Proof. apply combine_fst_snd. Qed.

Lemma snd_kept {A B} (P : B -> Prop) `{forall b, Decision (P b)}
    `{forall p : A * B, Decision (P (snd p))}
    (xs : list A) (ms : list B) :
  length xs = length ms ->
  map snd (filter (fun p => P (snd p)) (combine xs ms)) = filter P ms.
Proof.
  revert xs. induction ms as [|m ms IH]; intros [|x xs] Hlen;
    try discriminate; [reflexivity|].
  simpl in Hlen. injection Hlen as Hlen. simpl.
  destruct (decide (P m)) as [Hm|Hm].
  - rewrite !filter_cons_True by exact Hm. simpl. rewrite IH by exact Hlen.
    reflexivity.
  - rewrite !filter_cons_False by exact Hm. apply IH, Hlen.
Qed.

Lemma fst_kept_self {B} (P : B -> Prop) `{forall b, Decision (P b)}
    `{forall p : B * B, Decision (P (snd p))}
    (ms : list B) :
  map fst (filter (fun p => P (snd p)) (combine ms ms)) = filter P ms.
Proof.
  induction ms as [|m ms IH]; [reflexivity|]. simpl.
  destruct (decide (P m)) as [Hm|Hm].
  - rewrite !filter_cons_True by exact Hm. simpl. rewrite IH. reflexivity.
  - rewrite !filter_cons_False by exact Hm. exact IH.
Qed.

Lemma length_kept {A B} (P : B -> Prop) `{forall b, Decision (P b)}
    `{forall p : A * B, Decision (P (snd p))}
    (xs : list A) (ms : list B) :
  length xs = length ms ->
  length (filter (fun p => P (snd p)) (combine xs ms)) = length (filter P ms).
Proof.
  intros Hlen. rewrite <- (snd_kept P xs ms Hlen), length_map. reflexivity.
Qed.

(** The entries for a document and the others add up to the whole list. *)
Lemma length_filter_split {B} (P : B -> Prop) `{forall b, Decision (P b)}
    `{forall b, Decision (~ P b)}
    (ms : list B) :
  (length (filter (fun b => ~ P b) ms) + length (filter P ms))%nat = length ms.
Proof.
  induction ms as [|m ms IH]; [reflexivity|].
  destruct (decide (P m)) as [Hm|Hm].
  - rewrite (filter_cons_True P) by exact Hm.
    rewrite (filter_cons_False (fun b => ~ P b)) by tauto. simpl. lia.
  - rewrite (filter_cons_False P) by exact Hm.
    rewrite (filter_cons_True (fun b => ~ P b)) by exact Hm. simpl. lia.
Qed.

Lemma filter_filter_not {B} (P : B -> Prop) `{forall b, Decision (P b)}
    `{forall b, Decision (~ P b)}
    (ms : list B) :
  filter P (filter (fun b => ~ P b) ms) = [].
Proof.
  induction ms as [|m ms IH]; [reflexivity|].
  destruct (decide (P m)) as [Hm|Hm].
  - rewrite (filter_cons_False (fun b => ~ P b)) by tauto. exact IH.
  - rewrite (filter_cons_True (fun b => ~ P b)) by exact Hm.
    rewrite filter_cons_False by exact Hm. exact IH.
Qed.

Lemma filter_none_all {B} (P : B -> Prop) `{forall b, Decision (P b)}
    `{forall b, Decision (~ P b)}
    (ms : list B) :
  filter P ms = [] -> filter (fun b => ~ P b) ms = ms.
Proof.
  induction ms as [|m ms IH]; [reflexivity|].
  destruct (decide (P m)) as [Hm|Hm].
  - rewrite filter_cons_True by exact Hm. discriminate.
  - rewrite filter_cons_False by exact Hm. intros E.
    rewrite (filter_cons_True (fun b => ~ P b)) by exact Hm.
    rewrite IH by exact E. reflexivity.
Qed.

End StoreFacts.

(** ** The vector store's claims *)

Module StoreClaims.
Import Faiss Store FaissFacts StoreFacts Samples.

(** The invariant holds for a fresh store and is kept by [add_embeddings]. *)
Lemma new_store_wf dim : store_wf (new_store dim).
Proof. split; reflexivity. Qed.

Lemma add_embeddings_wf self embeddings chunks :
  store_wf self -> store_wf (snd (add_embeddings self embeddings chunks)).
Proof.
  intros [Hd Hn]. unfold add_embeddings.
  destruct (negb _) eqn:Elen; [split; assumption|].
  unfold add. destruct (Nat.eqb (width embeddings) _); [|split; assumption].
  apply negb_false_iff, Nat.eqb_eq in Elen.
  split; simpl; [exact Hd|].
  unfold ntotal in *. simpl. rewrite !length_app, length_map. lia.
Qed.

(** C4.  [add_embeddings] raises exactly when the number of vectors differs
    from the number of chunks or the vectors' width differs from the
    configured dimension; when it raises the store is left as it was, and
    when it returns the rows and the metadata have grown by the chunks. *)
Theorem C4_add_embeddings self embeddings chunks :
  store_wf self ->
  let out := add_embeddings self embeddings chunks in
  (raised (fst out) <->
     length (rows embeddings) <> length chunks \/
     width embeddings <> embedding_dim self)
  /\ (raised (fst out) -> snd out = self)
  /\ (fst out = Ok tt ->
      xb (index (snd out)) = xb (index self) ++ rows embeddings /\
      metadata (snd out) = metadata self ++ map meta_of_chunk chunks).
Proof.
  intros [Hd Hn]. unfold add_embeddings, add. rewrite Hd.
  destruct (Nat.eqb (length (rows embeddings)) (length chunks)) eqn:Elen;
    simpl.
  - apply Nat.eqb_eq in Elen.
    destruct (Nat.eqb (width embeddings) (embedding_dim self)) eqn:Ew; simpl.
    + apply Nat.eqb_eq in Ew. repeat split.
      * intros [e He]. discriminate.
      * intros [H|H]; contradiction.
      * intros [e He]. discriminate.
    + apply Nat.eqb_neq in Ew. repeat split.
      * intros _. right. exact Ew.
      * intros _. eexists. reflexivity.
      * discriminate.
      * discriminate.
  - apply Nat.eqb_neq in Elen. repeat split.
    + intros _. left. exact Elen.
    + intros _. eexists. reflexivity.
    + discriminate.
    + discriminate.
Qed.

(** Three vectors and two chunks: the call raises and the store is
    unchanged. *)
Lemma C4_add_embeddings_witness :
  store_wf (new_store 2) /\
  snd (add_embeddings (new_store 2) three_vectors two_chunks) = new_store 2.
Proof.
  assert (Hwf : store_wf (new_store 2)) by (split; reflexivity).
  split; [exact Hwf|].
  destruct (C4_add_embeddings (new_store 2) three_vectors two_chunks Hwf)
    as (Hiff & Hsame & _).
  apply Hsame, Hiff. left. simpl. lia.
Defined.

(** *** [delete_document] *)

Lemma keep_length self doc :
  length (indices_to_keep self doc)
  = length (filter (fun m => m_doc_id m <> doc) (metadata self)).
Proof.
  unfold indices_to_keep, enumerate. rewrite length_map.
  apply (length_kept (fun m => m_doc_id m <> doc)).
  apply length_seq.
Qed.

Lemma none_to_delete self doc :
  get_chunks_by_doc_id self doc = [] <->
  length (indices_to_keep self doc) = length (metadata self).
Proof.
  rewrite keep_length. unfold get_chunks_by_doc_id.
  pose proof (length_filter_split (fun m => m_doc_id m = doc) (metadata self))
    as Hsplit.
  split.
  - intros E. rewrite E in Hsplit. simpl in Hsplit. lia.
  - intros E. apply length_zero_iff_nil. lia.
Qed.

Lemma combine_keep_all {A} doc (xs : list A) (ms : list Meta) :
  filter (fun m => m_doc_id m = doc) ms = [] ->
  filter (fun p : A * Meta => m_doc_id (snd p) <> doc) (combine xs ms)
  = combine xs ms.
Proof.
  revert xs. induction ms as [|m ms IH]; intros [|x xs] E; try reflexivity.
  destruct (decide (m_doc_id m = doc)) as [Hm|Hm].
  - rewrite filter_cons_True in E by exact Hm. discriminate.
  - rewrite filter_cons_False in E by exact Hm. simpl.
    rewrite filter_cons_True by exact Hm. rewrite IH by exact E. reflexivity.
Qed.

Lemma read_row_Some l i v : l !! i = Some v -> read_row l i = Ok v.
Proof. intros H. unfold read_row. rewrite H. reflexivity. Qed.

Lemma getitem_Some {A} (l : list A) i a : l !! i = Some a -> getitem l i = Ok a.
Proof. intros H. unfold getitem. rewrite H. reflexivity. Qed.

(** The rows and the metadata read back for the kept positions. *)
Lemma kept_rows self doc :
  length (metadata self) = ntotal (index self) ->
  collect (map (reconstruct (index self)) (indices_to_keep self doc))
  = Ok (map fst (filter (fun p => m_doc_id (snd p) <> doc)
                        (combine (xb (index self)) (metadata self)))).
Proof.
  intros Hn.
  apply (collect_kept (fun m => m_doc_id m <> doc) read_row read_row_Some
           (metadata self) (xb (index self)) []).
  symmetry. exact Hn.
Qed.

Lemma kept_metadata self doc :
  collect (map (getitem (metadata self)) (indices_to_keep self doc))
  = Ok (filter (fun m => m_doc_id m <> doc) (metadata self)).
Proof.
  rewrite <- (fst_kept_self (fun m => m_doc_id m <> doc) (metadata self)).
  apply (collect_kept (fun m => m_doc_id m <> doc) getitem getitem_Some
           (metadata self) (metadata self) []).
  reflexivity.
Qed.

(** What [delete_document] leaves behind in a well-formed store. *)
Lemma delete_document_wf_spec self doc :
  store_wf self ->
  get_chunks_by_doc_id self doc <> [] ->
  delete_document self doc
  = (Ok tt,
     mkStore (embedding_dim self)
       (mkIndex (embedding_dim self)
          (map fst (filter (fun p => m_doc_id (snd p) <> doc)
                           (combine (xb (index self)) (metadata self)))))
       (filter (fun m => m_doc_id m <> doc) (metadata self))).
Proof.
  intros [Hd Hn] Hsome. unfold delete_document.
  destruct (Nat.eqb _ _) eqn:Eall.
  { apply Nat.eqb_eq, none_to_delete in Eall. contradiction. }
  assert (Hrows := length_kept (fun m => m_doc_id m <> doc)
                     (xb (index self)) (metadata self) (eq_sym Hn)).
  destruct (indices_to_keep self doc) as [|i keep] eqn:Ekeep.
  - simpl. pose proof (keep_length self doc) as Hk. rewrite Ekeep in Hk.
    simpl in Hk. symmetry in Hk. apply length_zero_iff_nil in Hk.
    rewrite Hk in *. simpl in Hrows. apply length_zero_iff_nil in Hrows.
    rewrite Hrows. reflexivity.
  - rewrite <- Ekeep.
    rewrite (kept_rows self doc Hn), kept_metadata.
    unfold add, new_index. simpl. rewrite Hd, Nat.eqb_refl.
    rewrite Ekeep. reflexivity.
Qed.

(** C5.  In a well-formed store (the index has the configured dimension and
    one row per metadata entry), [delete_document] returns, and afterwards
    the document has no chunks, [total_chunks] has dropped by the number of
    chunks it had, the remaining rows and their metadata are the old pairs
    of the other documents in their old order, and the store is still
    well-formed; when the document has no chunks the store is unchanged. *)
Theorem C5_delete_document self doc :
  store_wf self ->
  let out := delete_document self doc in
  fst out = Ok tt
  /\ get_chunks_by_doc_id (snd out) doc = []
  /\ (total_chunks (snd out) + length (get_chunks_by_doc_id self doc))%nat
     = total_chunks self
  /\ combine (xb (index (snd out))) (metadata (snd out))
     = filter (fun p => m_doc_id (snd p) <> doc)
              (combine (xb (index self)) (metadata self))
  /\ store_wf (snd out)
  /\ (get_chunks_by_doc_id self doc = [] -> snd out = self).
Proof.
  intros Hwf.
  destruct (decide (get_chunks_by_doc_id self doc = [])) as [Hnone|Hsome].
  - assert (E : delete_document self doc = (Ok tt, self)).
    { unfold delete_document.
      apply none_to_delete, Nat.eqb_eq in Hnone. rewrite Hnone. reflexivity. }
    rewrite E. simpl. rewrite Hnone. simpl.
    unfold get_chunks_by_doc_id in Hnone.
    rewrite (combine_keep_all _ _ _ Hnone).
    repeat split; try apply Hwf; lia.
  - rewrite (delete_document_wf_spec self doc Hwf Hsome). simpl.
    destruct Hwf as [Hd Hn].
    assert (Hrows := length_kept (fun m => m_doc_id m <> doc)
                       (xb (index self)) (metadata self) (eq_sym Hn)).
    split; [reflexivity|].
    split; [apply (filter_filter_not (fun m => m_doc_id m = doc))|].
    split.
    { unfold total_chunks, get_chunks_by_doc_id. rewrite <- Hn.
      unfold ntotal. simpl. rewrite length_map, Hrows.
      apply (length_filter_split (fun m => m_doc_id m = doc)). }
    split.
    { rewrite <- (snd_kept (fun m => m_doc_id m <> doc)
                    (xb (index self)) (metadata self) (eq_sym Hn)).
      apply combine_fst_snd. }
    split.
    { split; [reflexivity|].
      unfold ntotal. simpl. rewrite length_map, Hrows. reflexivity. }
    intros E. contradiction.
Qed.

(** Deleting document [a] from the sample store leaves the chunk of [b]. *)
Lemma C5_delete_document_witness :
  store_wf sample_store /\
  get_chunks_by_doc_id (snd (delete_document sample_store (u "a"))) (u "a")
  = [].
Proof.
  assert (Hwf : store_wf sample_store) by (split; reflexivity).
  split; [exact Hwf|].
  exact (proj1 (proj2 (C5_delete_document sample_store (u "a") Hwf))).
Defined.

(** *** [search] *)

(** Every result of [search] is a stored entry with the similarity of its
    row. *)
Lemma search_results_stored self q top_k doc_ids res :
  search self q top_k doc_ids = Ok res ->
  Forall (fun r => exists i v,
              metadata self !! i = Some (fst r) /\
              xb (index self) !! i = Some v /\
              snd r = similarity_of (sqdist q v) /\
              filtered_out doc_ids (fst r) = false) res.
Proof.
  intros H.
  destruct (decide (ntotal (index self) = 0%nat)) as [Hz|Hn].
  - unfold search in H. apply Nat.eqb_eq in Hz. rewrite Hz in H.
    inversion H. constructor.
  - apply (search_populated _ _ _ _ _ Hn) in H
      as (dists & labels & Hs & _ & ->).
    apply search_Ok in Hs as (_ & _ & Hpool). rewrite Hpool.
    apply Forall_take, Forall_forall. intros r Hr.
    apply list_elem_of_In, list_elem_of_omap in Hr as (c & Hc & Hkeep).
    apply In_take, ranked_In in Hc as (v & Hv & Hd).
    apply keep_candidate_Some in Hkeep as (Hm & Hs & Hf).
    exists (snd c), v. rewrite Hs, Hd. auto.
Qed.






(** C10.  An empty [doc_ids] list is treated as no list at all: the same
    candidates are fetched ([top_k], not [top_k * 10]) and nothing is
    filtered; so the call returns what the call without [doc_ids] returns,
    which on the sample store is a chunk and not the empty list. *)
Theorem C10_empty_doc_ids self q top_k :
  search self q top_k (Some []) = search self q top_k None
  /\ search_k top_k (Some []) = top_k
  /\ (forall m, filtered_out (Some []) m = false)
  /\ search sample_store [0%Q; 0%Q] 1 (Some [])
     = Ok [(sample_meta (u "a"), similarity_of 0)].
Proof.
  split.
  { unfold search. destruct (Nat.eqb _ _); [reflexivity|].
    simpl search_k. destruct (Faiss.search _ _ _) as [[dists labels]|e];
      [|reflexivity].
    rewrite search_loop_empty_ids. reflexivity. }
  split; [reflexivity|].
  split; [intros m; reflexivity|]. vm_compute. reflexivity.
Qed.

End StoreClaims.

(** ** The query engine's claims *)

Module RAGClaims.
Import Faiss Store RAG Api Samples.

Section Fallback.
Variable ext : Externals.

Lemma preview_answer_nonempty context : preview_answer context <> [].
Proof. discriminate. Qed.




End Fallback.



(** C8 as stated fails for the engine: [RAGEngine.query] does not look at
    the question before embedding it; on a blank question it calls the
    embedding model and returns a response. *)
Lemma C8_counterexample :
  ~ (forall ext self question doc_ids top_k,
       strip question = [] ->
       raised (fst (query ext self question doc_ids top_k))
       /\ ~ In (EmbedCall question)
              (snd (query ext self question doc_ids top_k))).
Proof.
  intros H.
  destruct (H offline sample_engine (u "   ") None 5 eq_refl) as [_ Hno].
  apply Hno. vm_compute. left. reflexivity.
Qed.

(** C8, amended.  The [/api/query] handler rejects a question that is blank
    after trimming with the HTTP error 400 before it calls the engine: no
    call to the embedding model or to a generative service is made; any
    other question is passed to [RAGEngine.query] as it is. *)
Theorem C8_blank_question_rejected_by_handler ext rag_engine request :
  (strip (req_question request) = [] ->
   query_documents ext rag_engine request
   = (Raise (HTTPException 400 (u "Question cannot be empty")), []))
  /\ (strip (req_question request) <> [] ->
      query_documents ext rag_engine request
      = query ext rag_engine (req_question request) (req_doc_ids request)
              (req_top_k request)).
Proof.
  unfold query_documents. split; intros H.
  - rewrite H. reflexivity.
  - destruct (strip (req_question request)); [contradiction|reflexivity].
Qed.

Lemma C8_blank_question_witness :
  strip (req_question blank_request) = [] /\
  query_documents offline sample_engine blank_request
  = (Raise (HTTPException 400 (u "Question cannot be empty")), []).
Proof.
  assert (H : strip (req_question blank_request) = []) by reflexivity.
  split; [exact H|].
  exact (proj1 (C8_blank_question_rejected_by_handler
                  offline sample_engine blank_request) H).
Defined.

End RAGClaims.

(** ** Further facts about strings and sentences *)

Module SentenceFacts.
Import Chunker ChunkerProps2 PyStrFacts.

Lemma lstrip_blank s : blank s -> lstrip s = [].
Proof.
  induction 1 as [|c s Hc _ IH]; simpl; [reflexivity|].
  rewrite Hc. exact IH.
Qed.

Lemma lstrip_head s c r : lstrip s = c :: r -> isspace c = false.
Proof.
  induction s as [|x s IH]; simpl; [discriminate|].
  destruct (isspace x) eqn:E; [exact IH|].
  intros H. inversion H; subst. exact E.
Qed.

Lemma lstrip_decomp s : exists sp, s = sp ++ lstrip s /\ blank sp.
Proof.
  induction s as [|x s (sp & Hs & Hsp)]; simpl.
  - exists []. split; [reflexivity|constructor].
  - destruct (isspace x) eqn:E.
    + exists (x :: sp). split; [simpl; f_equal; exact Hs|].
      constructor; assumption.
    + exists []. split; [reflexivity|constructor].
Qed.

Lemma blank_rev s : blank s -> blank (rev s).
Proof.
  unfold blank. rewrite !Forall_forall. intros H x Hx.
  apply H, in_rev, Hx.
Qed.

(** [strip] removes a blank prefix and a blank suffix and nothing else. *)
Lemma strip_decomp s :
  exists sp1 sp2, s = sp1 ++ strip s ++ sp2 /\ blank sp1 /\ blank sp2.
Proof.
  destruct (lstrip_decomp s) as (sp1 & Hs & Hsp1).
  destruct (lstrip_decomp (rev (lstrip s))) as (sp2 & Ht & Hsp2).
  exists sp1, (rev sp2). split; [|split; [exact Hsp1|apply blank_rev, Hsp2]].
  unfold strip. rewrite <- rev_app_distr, <- Ht, rev_involutive. exact Hs.
Qed.

Lemma split_aux_blank cur sp :
  blank sp -> split_aux cur sp = split_aux cur [].
Proof.
  intros H. revert cur. induction H as [|c sp Hc _ IH]; intros cur;
    [reflexivity|].
  simpl. rewrite Hc. destruct cur; rewrite IH; reflexivity.
Qed.

Lemma split_aux_blank_suffix cur s sp :
  blank sp -> split_aux cur (s ++ sp) = split_aux cur s.
Proof.
  intros H. revert cur. induction s as [|c s IH]; intros cur; simpl.
  - destruct sp as [|x sp]; [reflexivity|].
    rewrite (split_aux_blank cur (x :: sp) H). reflexivity.
  - destruct (isspace c); [destruct cur; rewrite IH; reflexivity|apply IH].
Qed.

Lemma split_blank_prefix sp s : blank sp -> split (sp ++ s) = split s.
Proof.
  induction 1 as [|c sp Hc _ IH]; [reflexivity|].
  unfold split in *. simpl. rewrite Hc. exact IH.
Qed.

Lemma split_blank s : blank s -> split s = [].
Proof.
  intros H. rewrite <- (app_nil_r s), split_blank_prefix by exact H.
  reflexivity.
Qed.

(** Stripping does not change the words. *)
Lemma split_strip s : split (strip s) = split s.
Proof.
  destruct (strip_decomp s) as (sp1 & sp2 & Hs & H1 & H2).
  rewrite Hs at 2. rewrite split_blank_prefix by exact H1.
  unfold split. rewrite split_aux_blank_suffix by exact H2. reflexivity.
Qed.

Lemma strip_trimmed s : strip s <> [] -> trimmed (strip s).
Proof.
  intros Hne. split.
  - destruct (lstrip_decomp (rev (lstrip s))) as (sp2 & Ht & Hsp2).
    apply (f_equal (@rev N)) in Ht.
    rewrite rev_involutive, rev_app_distr in Ht.
    change (rev (lstrip (rev (lstrip s)))) with (strip s) in Ht.
    destruct (strip s) as [|c r] eqn:E; [contradiction|].
    simpl in Ht. apply (lstrip_head s c (r ++ rev sp2)). exact Ht.
  - unfold strip. rewrite rev_involutive.
    destruct (lstrip (rev (lstrip s))) as [|c r] eqn:E.
    + unfold strip in Hne. rewrite E in Hne. contradiction.
    + apply lstrip_head in E. exact E.
Qed.

Lemma lstrip_id s c r : s = c :: r -> isspace c = false -> lstrip s = s.
Proof. intros -> H. simpl. rewrite H. reflexivity. Qed.

Lemma trimmed_strip s : trimmed s -> strip s = s.
Proof.
  intros [Hhead Hlast]. unfold strip.
  destruct s as [|c r]; [contradiction|].
  rewrite (lstrip_id (c :: r) c r eq_refl Hhead).
  destruct (rev (c :: r)) as [|x y] eqn:E; [contradiction|].
  rewrite (lstrip_id (x :: y) x y eq_refl Hlast).
  rewrite <- E. apply rev_involutive.
Qed.

Lemma split_aux_nonnil cur s : cur <> [] -> split_aux cur s <> [].
Proof.
  revert cur. induction s as [|c s IH]; intros cur Hcur; simpl.
  - destruct cur; [contradiction|discriminate].
  - destruct (isspace c).
    + destruct cur; [contradiction|discriminate].
    + apply IH. discriminate.
Qed.

Lemma trimmed_has_word s : trimmed s -> split s <> [].
Proof.
  intros [Hhead _]. destruct s as [|c r]; [contradiction|].
  unfold split. simpl. rewrite Hhead. apply split_aux_nonnil. discriminate.
Qed.

(** The pieces cut by the sentence pattern keep the words of the text. *)
Lemma re_split_words s : forall prev sep cur,
  (sep = true -> cur = []) ->
  concat (map split (re_split prev sep cur s)) = split (rev cur ++ s).
Proof.
  induction s as [|c s IH]; intros prev sep cur Hsep.
  - simpl. rewrite !app_nil_r. reflexivity.
  - simpl re_split.
    destruct (sep && isspace c) eqn:E1.
    + apply andb_true_iff in E1 as [-> Hc]. rewrite (Hsep eq_refl).
      rewrite IH by reflexivity. simpl.
      unfold split. simpl. rewrite Hc. reflexivity.
    + destruct (_ && isspace c && capital_ahead s) eqn:E2.
      * apply andb_true_iff in E2 as [E2 _].
        apply andb_true_iff in E2 as [_ Hc].
        simpl. rewrite IH by reflexivity. simpl.
        unfold split. rewrite (split_aux_app_space [] (rev cur) c s Hc).
        reflexivity.
      * rewrite IH by discriminate. simpl.
        rewrite <- app_assoc. reflexivity.
Qed.

Lemma strip_filter_words (pieces : list str) :
  concat (map split
            (map strip (filter (fun s => truthy (strip s) = true) pieces)))
  = concat (map split pieces).
Proof.
  induction pieces as [|p pieces IH]; [reflexivity|].
  destruct (truthy (strip p)) eqn:E.
  - rewrite filter_cons_True by exact E. simpl.
    rewrite split_strip, IH. reflexivity.
  - rewrite filter_cons_False by (rewrite E; discriminate). simpl.
    rewrite IH, <- (split_strip p).
    destruct (strip p); [reflexivity|discriminate].
Qed.

Lemma sentences_trimmed txt :
  Forall trimmed (_split_into_sentences txt).
Proof.
  unfold _split_into_sentences. apply Forall_forall. intros s Hs.
  apply in_map_iff in Hs as (p & <- & Hp).
  apply list_elem_of_In, list_elem_of_filter in Hp as [Hp _].
  apply strip_trimmed. destruct (strip p); [discriminate|discriminate].
Qed.

End SentenceFacts.

(** ** The accumulators as groups of whole sentences *)

Module GroupFacts.
Import Chunker ChunkerProps ChunkerProps2 PyStrFacts ChunkerFacts SentenceFacts.

Lemma words_snoc (cur : list str) s :
  length (split (join [SP] (cur ++ [s])))
  = (length (split (join [SP] cur)) + length (split s))%nat.
Proof.
  rewrite !split_join, map_app, concat_app, length_app. simpl.
  rewrite app_nil_r. reflexivity.
Qed.

Lemma words_pair (a b : str) :
  length (split (join [SP] [a; b]))
  = (length (split a) + length (split b))%nat.
Proof. apply (words_snoc [a] b). Qed.

Lemma truthy_true {A} (l : list A) : truthy l = true -> l <> [].
Proof. destruct l; [discriminate|discriminate]. Qed.

Lemma truthy_false {A} (l : list A) : truthy l = false -> l = [].
Proof. destruct l; [reflexivity|discriminate]. Qed.

Section Groups.
Variable self : TextChunker.
Variables (doc fname dtype : str) (page : option Z).

Local Abbreviation self0 := (without_floor self).

Lemma open_run_nonempty st seen gs seed run :
  grouped self st seen gs seed run ->
  current_chunk st <> [] -> run <> [].
Proof.
  intros (_ & Hcur & _ & Hrun & _) Hne E.
  rewrite Hcur, E, (Hrun E) in Hne. contradiction.
Qed.

(** Closing the open accumulator adds one well-formed group. *)
Lemma close_group st seen gs seed run idx :
  grouped self st seen gs seed run ->
  Forall (group_ok self) gs ->
  current_chunk st <> [] ->
  map text (chunks st ++
     [make_chunk doc fname dtype page idx (join [SP] (current_chunk st))])
  = map group_text (gs ++ [(seed, run)])
  /\ Forall (group_ok self) (gs ++ [(seed, run)])
  /\ concat (map snd (gs ++ [(seed, run)])) = seen.
Proof.
  intros Hg Hok Hne.
  pose proof (open_run_nonempty _ _ _ _ _ Hg Hne) as Hrun.
  destruct Hg as (Ht & Hcur & Hseen & _ & Hseed & Hnoseed & Hcount & Hbound).
  split; [|split].
  - rewrite !map_app, Ht. simpl. unfold group_text. simpl.
    rewrite Hcur. reflexivity.
  - apply Forall_app. split; [exact Hok|]. constructor; [|constructor].
    split; [exact Hrun|]. split; [exact Hseed|]. split; [exact Hnoseed|].
    unfold group_text. simpl. rewrite <- Hcount.
    destruct Hbound as [Hb|Hb]; [left; exact Hb|right].
    destruct run as [|r [|r' run]]; [contradiction|reflexivity|simpl in Hb; lia].
  - rewrite map_app, concat_app. simpl. rewrite app_nil_r. symmetry.
    exact Hseen.
Qed.

Lemma loop_body_grouped st seen gs seed run s :
  grouped self st seen gs seed run ->
  Forall (group_ok self) gs ->
  exists gs' seed' run',
    grouped self (loop_body self0 doc fname dtype page st s) (seen ++ [s])
            gs' seed' run'
    /\ Forall (group_ok self) gs'.
Proof.
  intros Hg Hok. unfold loop_body.
  destruct (_ && _) eqn:Hcond.
  - apply andb_true_iff in Hcond as [_ Hne]. apply truthy_true in Hne.
    destruct (close_group st seen gs seed run (next_index st) Hg Hok Hne)
      as (Ht & Hok' & Hseen').
    rewrite meets_floor_without. unfold restart.
    assert (Hlen : (0 <? Z.of_nat (length (current_chunk st))) = true).
    { destruct (current_chunk st); [contradiction|reflexivity]. }
    rewrite Hlen, andb_true_r.
    change (chunk_overlap self0) with (chunk_overlap self).
    destruct (0 <? chunk_overlap self) eqn:Ek; cbv beta iota zeta.
    + apply Z.ltb_lt in Ek.
      eexists (gs ++ [(seed, run)]), [_], [s]. split; [|exact Hok'].
      repeat split; cbn [chunks current_chunk current_word_count].
      * exact Ht.
      * rewrite Hseen'. reflexivity.
      * discriminate.
      * simpl. lia.
      * lia.
      * simpl app. rewrite words_pair. lia.
      * right. simpl. lia.
    + apply Z.ltb_ge in Ek.
      exists (gs ++ [(seed, run)]), [], [s]. split; [|exact Hok'].
      repeat split; cbn [chunks current_chunk current_word_count].
      * exact Ht.
      * rewrite Hseen'. reflexivity.
      * simpl. lia.
      * right. simpl. lia.
  - destruct Hg as (Ht & Hcur & Hseen & Hrun & Hseed & Hnoseed & Hcount & Hb).
    exists gs, seed, (run ++ [s]). split; [|exact Hok].
    repeat split; cbn [chunks current_chunk current_word_count].
    + exact Ht.
    + rewrite Hcur, app_assoc. reflexivity.
    + rewrite Hseen, app_assoc. reflexivity.
    + intros E. destruct run; discriminate.
    + exact Hseed.
    + exact Hnoseed.
    + rewrite app_assoc, words_snoc, <- Hcur, Hcount, Hcur. lia.
    + apply andb_false_iff in Hcond as [Hc|Hc].
      * left. apply Z.ltb_ge in Hc. exact Hc.
      * right. apply truthy_false in Hc. rewrite Hcur in Hc.
        apply app_eq_nil in Hc as [_ ->]. simpl. lia.
Qed.

Lemma run_loop_grouped ss : forall st seen gs seed run,
  grouped self st seen gs seed run ->
  Forall (group_ok self) gs ->
  exists gs' seed' run',
    grouped self (run_loop self0 doc fname dtype page st ss) (seen ++ ss)
            gs' seed' run'
    /\ Forall (group_ok self) gs'.
Proof.
  induction ss as [|s ss IH]; intros st seen gs seed run Hg Hok.
  - rewrite app_nil_r. simpl. eauto.
  - destruct (loop_body_grouped st seen gs seed run s Hg Hok)
      as (gs1 & seed1 & run1 & Hg1 & Hok1).
    destruct (IH _ _ _ _ _ Hg1 Hok1) as (gs2 & seed2 & run2 & Hg2 & Hok2).
    rewrite <- app_assoc in Hg2. simpl in Hg2. simpl. eauto.
Qed.

(** The chunks of the floor-free run are the groups of a partition of the
    sentences. *)
Lemma _chunk_sentences_groups ss :
  exists gs,
    map text (_chunk_sentences self0 doc fname dtype page ss)
    = map group_text gs
    /\ concat (map snd gs) = ss
    /\ Forall (group_ok self) gs.
Proof.
  unfold _chunk_sentences.
  destruct (run_loop_grouped ss (mkLoop [] [] 0 0%nat) [] [] [] [])
    as (gs & seed & run & Hg & Hok).
  { repeat split; simpl; try reflexivity; lia. }
  { constructor. }
  simpl in Hg. unfold flush.
  destruct (truthy _) eqn:E.
  - apply truthy_true in E.
    destruct (close_group _ _ _ _ _ (next_index
                (run_loop self0 doc fname dtype page (mkLoop [] [] 0 0%nat) ss))
                Hg Hok E) as (Ht & Hok' & Hseen).
    rewrite meets_floor_without. eauto.
  - apply truthy_false in E.
    destruct Hg as (Ht & Hcur & Hseen & _).
    exists gs. split; [exact Ht|]. split; [|exact Hok].
    rewrite Hcur in E. apply app_eq_nil in E as [_ ->].
    rewrite app_nil_r in Hseen. symmetry. exact Hseen.
Qed.
End Groups.

End GroupFacts.

(** ** Further properties of the chunker *)

Module ChunkerExtras.
Import Chunker ChunkerProps ChunkerProps2 PyStrFacts ChunkerFacts.
Import SentenceFacts GroupFacts Samples Samples2.

Lemma words_of_sentences txt :
  concat (map split (_split_into_sentences txt)) = split txt.
Proof.
  unfold _split_into_sentences. rewrite strip_filter_words.
  rewrite (re_split_words txt None false []) by discriminate. reflexivity.
Qed.

Lemma sentences_shape txt :
  Forall (fun s => trimmed s /\ strip s = s /\ split s <> [])
         (_split_into_sentences txt).
Proof.
  eapply List.Forall_impl; [|apply sentences_trimmed].
  intros s Hs. split; [exact Hs|].
  split; [apply trimmed_strip, Hs|apply trimmed_has_word, Hs].
Qed.

(** X1.  Sentence segmentation keeps the words: the words of the sentences, in
    order, are the words of the text. *)
Theorem sentences_keep_words txt :
  concat (map split (_split_into_sentences txt)) = split txt.
Proof. apply words_of_sentences. Qed.

(** X2.  Every sentence starts and ends with a character that is not
    whitespace, is left unchanged by [strip], and has at least one word. *)
Theorem sentences_are_trimmed txt :
  Forall (fun s => trimmed s /\ strip s = s /\ split s <> [])
         (_split_into_sentences txt).
Proof. apply sentences_shape. Qed.

Lemma blank_no_sentences txt : blank txt -> _split_into_sentences txt = [].
Proof.
  intros Hb. pose proof (words_of_sentences txt) as Hw.
  rewrite (split_blank txt Hb) in Hw.
  pose proof (sentences_shape txt) as Ht.
  destruct (_split_into_sentences txt) as [|s ss]; [reflexivity|].
  inversion Ht as [|? ? (_ & _ & Hs) _]; subst. simpl in Hw.
  destruct (split s); [contradiction|discriminate].
Qed.

(** X3.  A text of whitespace only (the empty text included) has no sentences
    and gives no chunks, whether it comes as a whole or as pages. *)
Theorem blank_text_no_chunks self txt doc fname dtype pages :
  blank txt ->
  match pages with
  | Some ps => Forall (fun p => blank (pg_text p)) ps
  | None => True
  end ->
  _split_into_sentences txt = []
  /\ chunk_document self txt doc fname dtype pages = [].
Proof.
  intros Hb Hps. split; [apply blank_no_sentences, Hb|].
  assert (Hone : forall page t, blank t ->
            _chunk_text self doc fname dtype page t = []).
  { intros page t Ht. unfold _chunk_text.
    rewrite (blank_no_sentences t Ht). reflexivity. }
  unfold chunk_document. destruct pages as [[|p ps]|]; try (apply Hone, Hb).
  induction Hps as [|q qs Hq _ IH]; [reflexivity|].
  simpl. rewrite (Hone _ _ Hq). exact IH.
Qed.

Lemma blank_text_no_chunks_witness :
  blank (u "  ") /\
  chunk_document default_chunker (u "  ") (u "d1") (u "f") (u "t") None = [].
Proof.
  assert (Hb : blank (u "  ")) by (repeat constructor).
  split; [exact Hb|].
  exact (proj2 (blank_text_no_chunks default_chunker (u "  ") (u "d1")
                  (u "f") (u "t") None Hb I)).
Defined.

(** An emitted chunk is a closed group of the floor-free run. *)
Lemma emitted_group self doc fname dtype page txt c :
  In c (_chunk_text self doc fname dtype page txt) ->
  exists gs1 g gs2,
    text c = group_text g /\ group_ok self g
    /\ concat (map snd (gs1 ++ g :: gs2)) = _split_into_sentences txt.
Proof.
  intros Hc.
  destruct (_chunk_sentences_groups self doc fname dtype page
              (_split_into_sentences txt)) as (gs & Ht & Hseen & Hok).
  assert (Hin : In (text c) (map group_text gs)).
  { rewrite <- Ht.
    change (_chunk_sentences (without_floor self) doc fname dtype page
              (_split_into_sentences txt))
      with (_chunk_text (without_floor self) doc fname dtype page txt).
    apply (in_map text) in Hc.
    rewrite (_chunk_text_windows self doc fname dtype page
               doc fname dtype page txt) in Hc.
    apply list_elem_of_In, list_elem_of_filter in Hc as [_ Hc].
    apply list_elem_of_In, Hc. }
  apply in_map_iff in Hin as (g & Hg & Hgin).
  apply in_split in Hgin as (gs1 & gs2 & ->).
  exists gs1, g, gs2. split; [symmetry; exact Hg|]. split; [|exact Hseen].
  rewrite Forall_forall in Hok. apply Hok, in_elt.
Qed.

(** X4.  A chunk never splits a sentence: its text is a run of consecutive
    whole sentences of the text joined by single spaces, after at most one
    overlap text, and after none when the overlap is not positive. *)
Theorem chunks_are_whole_sentences self doc fname dtype page txt c :
  In c (_chunk_text self doc fname dtype page txt) ->
  exists seed run before after,
    text c = join [SP] (seed ++ run)
    /\ run <> []
    /\ _split_into_sentences txt = before ++ run ++ after
    /\ (length seed <= 1)%nat
    /\ (chunk_overlap self <= 0 -> seed = []).
Proof.
  intros Hc.
  destruct (emitted_group _ _ _ _ _ _ _ Hc)
    as (gs1 & [seed run] & gs2 & Ht & (Hrun & Hseed & Hno & _) & Hseen).
  exists seed, run, (concat (map snd gs1)), (concat (map snd gs2)).
  split; [exact Ht|]. split; [exact Hrun|]. split; [|split; assumption].
  rewrite <- Hseen, map_app, concat_app. reflexivity.
Qed.

Lemma chunks_are_whole_sentences_witness :
  exists seed run before after,
    text first_tiny_chunk = join [SP] (seed ++ run)
    /\ run <> []
    /\ _split_into_sentences three_sentences = before ++ run ++ after
    /\ (length seed <= 1)%nat
    /\ (chunk_overlap tiny_chunker <= 0 -> seed = []).
Proof.
  apply (chunks_are_whole_sentences tiny_chunker (u "d1") (u "f") (u "t")
           None three_sentences first_tiny_chunk).
  vm_compute. left. reflexivity.
Defined.

(** X5.  A chunk holds at most [chunk_size] words, unless it is a single
    sentence after at most one overlap text: a sentence is never cut to fit. *)
Theorem chunk_word_budget self doc fname dtype page txt c :
  In c (_chunk_text self doc fname dtype page txt) ->
  Z.of_nat (length (split (text c))) <= chunk_size self
  \/ exists seed s,
       text c = join [SP] (seed ++ [s])
       /\ (length seed <= 1)%nat
       /\ In s (_split_into_sentences txt).
Proof.
  intros Hc.
  destruct (emitted_group _ _ _ _ _ _ _ Hc)
    as (gs1 & [seed run] & gs2 & Ht & (Hrun & Hseed & _ & Hb) & Hseen).
  rewrite Ht. destruct Hb as [Hb|Hb]; [left; exact Hb|right].
  simpl in Hb. destruct run as [|s [|s' run]]; try discriminate.
  exists seed, s. split; [reflexivity|]. split; [exact Hseed|].
  rewrite <- Hseen, map_app, concat_app. simpl.
  apply in_or_app. right. left. reflexivity.
Qed.

Lemma chunk_word_budget_witness :
  Z.of_nat (length (split (text first_tiny_chunk))) <= chunk_size tiny_chunker
  \/ exists seed s,
       text first_tiny_chunk = join [SP] (seed ++ [s])
       /\ (length seed <= 1)%nat
       /\ In s (_split_into_sentences three_sentences).
Proof.
  apply (chunk_word_budget tiny_chunker (u "d1") (u "f") (u "t") None
           three_sentences first_tiny_chunk).
  vm_compute. left. reflexivity.
Defined.

Lemma words_of_groups (gs : list group) :
  Forall (fun g => fst g = []) gs ->
  concat (map split (map group_text gs))
  = concat (map split (concat (map snd gs))).
Proof.
  induction 1 as [|[seed run] gs Hg _ IH]; [reflexivity|].
  simpl in Hg. subst seed. simpl.
  rewrite map_app, concat_app, <- IH.
  unfold group_text at 1. simpl. rewrite split_join. reflexivity.
Qed.

(** Without overlap and with a floor of at most one word, one
    [_chunk_text] call loses and repeats nothing. *)
Lemma _chunk_text_keeps_words self doc fname dtype page txt :
  chunk_overlap self <= 0 -> min_chunk_size self <= 1 ->
  concat (map (fun c => split (text c))
              (_chunk_text self doc fname dtype page txt))
  = split txt.
Proof.
  intros Hk Hmin.
  destruct (_chunk_sentences_groups self doc fname dtype page
              (_split_into_sentences txt)) as (gs & Ht & Hseen & Hok).
  change (_chunk_sentences (without_floor self) doc fname dtype page
            (_split_into_sentences txt))
    with (_chunk_text (without_floor self) doc fname dtype page txt) in Ht.
  assert (Hnoseed : Forall (fun g : group => fst g = []) gs).
  { eapply List.Forall_impl; [|exact Hok]. intros g (_ & _ & H & _).
    apply H, Hk. }
  assert (Hfloor : Forall (fun t => meets_floor self t = true)
                          (map group_text gs)).
  { apply Forall_forall. intros t Hin.
    apply in_map_iff in Hin as ([seed run] & <- & Hg).
    rewrite Forall_forall in Hok, Hnoseed.
    destruct (Hok _ Hg) as (Hrun & _). pose proof (Hnoseed _ Hg) as Hs.
    simpl in Hs, Hrun. subst seed.
    unfold meets_floor, group_text. simpl. apply Z.leb_le.
    rewrite split_join.
    destruct run as [|s run]; [contradiction|]. simpl.
    assert (Hin : In s (_split_into_sentences txt)).
    { rewrite <- Hseen. apply in_concat. exists (s :: run).
      split; [|left; reflexivity].
      apply (in_map snd _ ([], s :: run)), Hg. }
    pose proof (sentences_shape txt) as Htr.
    rewrite Forall_forall in Htr. destruct (Htr s Hin) as (_ & _ & Hw).
    rewrite length_app. destruct (split s); [contradiction|simpl; lia]. }
  rewrite <- (map_map text split).
  rewrite (_chunk_text_windows self doc fname dtype page
             doc fname dtype page txt), Ht.
  rewrite (filter_all _ _ Hfloor), (words_of_groups gs Hnoseed), Hseen.
  apply words_of_sentences.
Qed.

(** X6.  Without overlap and with a floor of at most one word, the words of
    the chunks, read in order, are the words of the text (of the pages, when
    there are pages): nothing is lost and nothing is repeated. *)
Theorem no_overlap_keeps_every_word self txt doc fname dtype pages :
  chunk_overlap self <= 0 -> min_chunk_size self <= 1 ->
  concat (map (fun c => split (text c))
              (chunk_document self txt doc fname dtype pages))
  = match pages with
    | Some (p :: ps) => concat (map (fun q => split (pg_text q)) (p :: ps))
    | _ => split txt
    end.
Proof.
  intros Hk Hmin. unfold chunk_document.
  destruct pages as [[|p ps]|];
    try (apply _chunk_text_keeps_words; assumption).
  induction (p :: ps) as [|q qs IH]; [reflexivity|].
  simpl. rewrite map_app, concat_app, IH.
  rewrite _chunk_text_keeps_words by assumption. reflexivity.
Qed.

Lemma no_overlap_keeps_every_word_witness :
  concat (map (fun c => split (text c))
              (chunk_document plain_chunker three_sentences (u "d1") (u "f")
                              (u "t") None))
  = split three_sentences.
Proof.
  apply (no_overlap_keeps_every_word plain_chunker three_sentences (u "d1")
           (u "f") (u "t") None); simpl; lia.
Defined.

(** *** A text within the budget *)

Lemma loop_body_fits self doc fname dtype page st s :
  current_word_count st + Z.of_nat (length (split s)) <= chunk_size self ->
  loop_body self doc fname dtype page st s
  = mkLoop (chunks st) (current_chunk st ++ [s])
           (current_word_count st + Z.of_nat (length (split s)))
           (next_index st).
Proof.
  intros Hfit. unfold loop_body.
  replace (chunk_size self <? _) with false
    by (symmetry; apply Z.ltb_ge; lia).
  reflexivity.
Qed.

Lemma run_loop_fits self doc fname dtype page ss : forall st,
  current_word_count st + Z.of_nat (length (concat (map split ss)))
  <= chunk_size self ->
  run_loop self doc fname dtype page st ss
  = mkLoop (chunks st) (current_chunk st ++ ss)
           (current_word_count st
            + Z.of_nat (length (concat (map split ss))))
           (next_index st).
Proof.
  induction ss as [|s ss IH]; intros st Hfit.
  - simpl. rewrite app_nil_r, Z.add_0_r. destruct st; reflexivity.
  - simpl in Hfit. rewrite length_app in Hfit.
    change (run_loop self doc fname dtype page st (s :: ss))
      with (run_loop self doc fname dtype page
              (loop_body self doc fname dtype page st s) ss).
    rewrite loop_body_fits by lia. rewrite IH by (simpl; lia). simpl.
    rewrite <- app_assoc, length_app. simpl. f_equal. lia.
Qed.

(** X7.  A text whose words fit the budget becomes one chunk, numbered 0, that
    holds all its sentences joined by single spaces, if that has at least
    [min_chunk_size] words; otherwise there is no chunk. *)
Theorem text_within_budget_one_chunk self txt doc fname dtype :
  Z.of_nat (length (split txt)) <= chunk_size self ->
  let ss := _split_into_sentences txt in
  chunk_document self txt doc fname dtype None
  = if truthy ss && meets_floor self (join [SP] ss)
    then [make_chunk doc fname dtype None 0 (join [SP] ss)]
    else [].
Proof.
  intros Hfit ss. unfold chunk_document, _chunk_text, _chunk_sentences.
  fold ss. rewrite run_loop_fits.
  - unfold flush. simpl. destruct (truthy ss); [|reflexivity].
    destruct (meets_floor self _); reflexivity.
  - simpl. unfold ss. rewrite words_of_sentences. exact Hfit.
Qed.

Lemma text_within_budget_witness :
  chunk_document default_chunker hundred_words (u "d1") (u "f") (u "t") None
  = [make_chunk (u "d1") (u "f") (u "t") None 0 hundred_words].
Proof.
  rewrite (text_within_budget_one_chunk default_chunker hundred_words
             (u "d1") (u "f") (u "t")).
  - vm_compute. reflexivity.
  - vm_compute. discriminate.
Defined.

(** *** Identifiers on the unpaged path *)

Lemma u_inj s1 s2 : u s1 = u s2 -> s1 = s2.
Proof.
  unfold u. intros H.
  rewrite <- (string_of_list_ascii_of_string s1),
          <- (string_of_list_ascii_of_string s2).
  f_equal. revert H.
  generalize (list_ascii_of_string s1) (list_ascii_of_string s2).
  induction l as [|a l IH]; intros [|b l'] H; try discriminate;
    [reflexivity|].
  simpl in H. injection H as Hab Hl.
  apply (f_equal ascii_of_N) in Hab. rewrite !ascii_N_embedding in Hab.
  subst b. f_equal. apply IH, Hl.
Qed.

Lemma to_uint_not_Nil n : Nat.to_uint n <> Decimal.Nil.
Proof.
  intros E. pose proof (DecimalNat.Unsigned.of_to n) as H.
  rewrite E in H. simpl in H. subst n. discriminate.
Qed.

Lemma str_of_nat_inj n m : str_of_nat n = str_of_nat m -> n = m.
Proof.
  unfold str_of_nat. intros H. apply u_inj in H.
  apply (f_equal NilZero.uint_of_string) in H.
  rewrite !NilZero.usu in H by apply to_uint_not_Nil.
  injection H as H. apply DecimalNat.Unsigned.to_uint_inj, H.
Qed.

(** X8.  Without pages every chunk has an id of its own. *)
Theorem unpaged_chunk_ids_distinct self txt doc fname dtype :
  NoDup (map chunk_id (chunk_document self txt doc fname dtype None)).
Proof.
  destruct (_chunk_text_numbered self doc fname dtype None txt) as [Hi Hid].
  unfold chunk_document.
  set (cs := _chunk_text self doc fname dtype None txt) in *.
  assert (E : map chunk_id cs
              = map (fun i => doc ++ u "_chunk_" ++ str_of_nat i)
                    (map chunk_index cs)).
  { rewrite map_map. apply map_ext_in. intros c Hc.
    rewrite Forall_forall in Hid. apply Hid, Hc. }
  rewrite E, Hi. apply NoDup_fmap_2; [|apply NoDup_seq].
  intros i j H. apply app_inv_head in H. apply app_inv_head in H.
  apply str_of_nat_inj, H.
Qed.

End ChunkerExtras.

(** ** Properties of [get_chunk_context] *)

Module ContextExtras.
Import Chunker ChunkerProps ChunkerProps2 PyStrFacts ChunkerFacts.
Import Context ChunkerClaims ChunkerExtras Samples Samples2.

(** Every chunk carries the document id, the file name, the document type
    and the page number it was made for. *)
Lemma _chunk_text_fields self doc fname dtype page txt :
  Forall (fun c => doc_id c = doc /\ filename c = fname
                   /\ doc_type c = dtype /\ page_number c = page)
         (_chunk_text self doc fname dtype page txt).
Proof.
  set (P := fun c => doc_id c = doc /\ filename c = fname
                     /\ doc_type c = dtype /\ page_number c = page).
  assert (Hmk : forall i t, P (make_chunk doc fname dtype page i t))
    by (intros; repeat split).
  unfold _chunk_text, _chunk_sentences.
  assert (H : Forall P (chunks (run_loop self doc fname dtype page
                                  (mkLoop [] [] 0 0%nat)
                                  (_split_into_sentences txt)))).
  { apply (run_loop_ind self doc fname dtype page
             (fun st => Forall P (chunks st))); [|constructor].
    intros st s Hst. unfold loop_body.
    destruct (_ && _); [|exact Hst].
    destruct (restart _ _ _ _) as [cur' count'].
    destruct (meets_floor self _); simpl; [|exact Hst].
    apply Forall_app. split; [exact Hst|]. constructor; [apply Hmk|constructor]. }
  unfold flush. destruct (truthy _); [|exact H].
  destruct (meets_floor self _); [|exact H].
  apply Forall_app. split; [exact H|]. constructor; [apply Hmk|constructor].
Qed.

Lemma chunk_document_doc_id self txt doc fname dtype pages :
  Forall (fun c => doc_id c = doc)
         (chunk_document self txt doc fname dtype pages).
Proof.
  assert (Hone : forall page t,
            Forall (fun c => doc_id c = doc)
                   (_chunk_text self doc fname dtype page t)).
  { intros page t. eapply List.Forall_impl; [|apply _chunk_text_fields].
    intros c (H & _). exact H. }
  unfold chunk_document. destruct pages as [[|p ps]|]; try apply Hone.
  apply Forall_concat, Forall_forall. intros cs Hcs.
  apply in_map_iff in Hcs as (q & <- & _). apply Hone.
Qed.

Lemma insert_by_index_In x c l :
  In x (insert_by_index c l) <-> x = c \/ In x l.
Proof.
  induction l as [|y l IH]; simpl; [intuition|].
  destruct (Nat.leb _ _); simpl; [intuition|]. rewrite IH. intuition.
Qed.

Lemma sort_by_index_In x l : In x (sort_by_index l) <-> In x l.
Proof.
  induction l as [|c l IH]; simpl; [reflexivity|].
  rewrite insert_by_index_In, IH. intuition.
Qed.

Lemma first_with_id_absent id l :
  Forall (fun c => chunk_id c <> id) l -> first_with_id id l = None.
Proof.
  induction 1 as [|c l Hc _ IH]; [reflexivity|].
  simpl. rewrite bool_decide_eq_false_2 by exact Hc. rewrite IH. reflexivity.
Qed.

Lemma first_with_id_at id l1 c l2 :
  Forall (fun x => chunk_id x <> id) l1 -> chunk_id c = id ->
  first_with_id id (l1 ++ c :: l2) = Some (length l1).
Proof.
  intros H Hc. induction H as [|x l1 Hx _ IH]; simpl.
  - rewrite bool_decide_eq_true_2 by exact Hc. reflexivity.
  - rewrite bool_decide_eq_false_2 by exact Hx. rewrite IH. reflexivity.
Qed.

(** Chunks numbered in increasing order are left as they are by the sort. *)
Lemma sort_by_index_numbered l : forall a n,
  map chunk_index l = seq a n -> sort_by_index l = l.
Proof.
  induction l as [|c l IH]; intros a n H; [reflexivity|].
  destruct n as [|n]; [discriminate|]. simpl in H. injection H as Hc Hl.
  simpl. rewrite (IH _ _ Hl).
  destruct l as [|x l]; [reflexivity|].
  destruct n as [|n]; [discriminate|]. simpl in Hl. injection Hl as Hx _.
  simpl. rewrite Hc, Hx.
  replace (Nat.leb a (S a)) with true by (symmetry; apply Nat.leb_le; lia).
  reflexivity.
Qed.

Lemma sort_by_index_zero_first c l :
  chunk_index c = 0%nat -> sort_by_index (c :: l) = c :: sort_by_index l.
Proof.
  intros H. simpl. destruct (sort_by_index l) as [|x r]; [reflexivity|].
  simpl. rewrite H. reflexivity.
Qed.

Lemma filter_same_doc doc (l : list ChunkMetadata) :
  Forall (fun c => doc_id c = doc) l ->
  filter (fun c => doc_id c = doc) l = l.
Proof. apply filter_all. Qed.

(** The window around position [length l1], for a size that is not
    negative. *)
Lemma slice_window {A} (l1 : list A) c l2 k :
  0 <= k ->
  slice (Z.max 0 (Z.of_nat (length l1) - k))
        (Z.min (Z.of_nat (length (l1 ++ c :: l2)))
               (Z.of_nat (length l1) + k + 1))
        (l1 ++ c :: l2)
  = drop (length l1 - Z.to_nat k) l1 ++ c :: take (Z.to_nat k) l2.
Proof.
  intros Hk. unfold slice, slice_bound.
  set (i := length l1). set (kn := Z.to_nat k).
  assert (Hlen : length (l1 ++ c :: l2) = (i + S (length l2))%nat)
    by (rewrite length_app; reflexivity).
  rewrite Hlen.
  replace (Z.max 0 (Z.of_nat i - k) <? 0) with false
    by (symmetry; apply Z.ltb_ge; lia).
  replace (Z.min (Z.of_nat (i + S (length l2))) (Z.of_nat i + k + 1) <? 0)
    with false by (symmetry; apply Z.ltb_ge; lia).
  replace (Nat.min (Z.to_nat (Z.max 0 (Z.of_nat i - k))) (i + S (length l2)))
    with (i - kn)%nat by lia.
  replace (Nat.min (Z.to_nat (Z.min (Z.of_nat (i + S (length l2)))
                                    (Z.of_nat i + k + 1)))
                   (i + S (length l2)) - (i - kn))%nat
    with (length (drop (i - kn) l1) + S (Nat.min kn (length l2)))%nat
    by (rewrite length_drop; fold i; lia).
  rewrite drop_app_le by (fold i; lia).
  rewrite take_app_add. simpl. rewrite <- take_take.
  rewrite (take_ge l2 (length l2)) by lia. reflexivity.
Qed.

Lemma numbered_ids_differ doc (l1 : list ChunkMetadata) c l2 n :
  numbered doc (l1 ++ c :: l2) n ->
  Forall (fun x => chunk_id x <> chunk_id c) l1.
Proof.
  intros [Hi Hid]. apply Forall_forall. intros x Hx E.
  rewrite Forall_forall in Hid.
  rewrite (Hid x), (Hid c) in E
    by (apply in_app_iff; simpl; tauto).
  apply app_inv_head in E. apply app_inv_head in E.
  apply str_of_nat_inj in E.
  assert (Hnd : NoDup (map chunk_index (l1 ++ c :: l2)))
    by (rewrite Hi; apply NoDup_seq).
  rewrite map_app in Hnd. simpl in Hnd.
  apply list.NoDup_app in Hnd as (_ & Hsep & _).
  apply (Hsep (chunk_index x)).
  - apply list_elem_of_In, in_map, Hx.
  - rewrite E. left.
Qed.

(** What the function returns once the chunks of the document are known to
    be in order, with the target at position [length l1]. *)
Lemma get_chunk_context_at chunk all l1 c l2 k :
  sort_by_index (filter (fun x => doc_id x = doc_id chunk) all)
  = l1 ++ c :: l2 ->
  Forall (fun x => chunk_id x <> chunk_id chunk) l1 ->
  chunk_id c = chunk_id chunk ->
  0 <= k ->
  get_chunk_context chunk all k
  = join [SP] (map text (drop (length l1 - Z.to_nat k) l1
                         ++ c :: take (Z.to_nat k) l2)).
Proof.
  intros Hs Hl1 Hc Hk. unfold get_chunk_context. rewrite Hs.
  rewrite (first_with_id_at _ _ _ _ Hl1 Hc).
  rewrite slice_window by exact Hk. reflexivity.
Qed.

(** X9.  A chunk that the list does not hold (no chunk of its document has its
    id) gets its own text back, whatever the context size: the failed lookup
    is caught. *)
Theorem get_chunk_context_unknown_chunk chunk all_chunks context_size :
  Forall (fun c => doc_id c = doc_id chunk -> chunk_id c <> chunk_id chunk)
         all_chunks ->
  get_chunk_context chunk all_chunks context_size = text chunk.
Proof.
  intros H. unfold get_chunk_context.
  rewrite first_with_id_absent; [reflexivity|].
  apply Forall_forall. intros c Hc.
  apply sort_by_index_In, list_elem_of_In, list_elem_of_filter in Hc
    as [Hd Hin].
  rewrite Forall_forall in H. apply H; [apply list_elem_of_In, Hin|exact Hd].
Qed.

Lemma get_chunk_context_unknown_chunk_witness :
  get_chunk_context foreign_chunk
    (chunk_document tiny_chunker three_sentences (u "d1") (u "f") (u "t") None)
    1
  = text foreign_chunk.
Proof.
  apply get_chunk_context_unknown_chunk.
  vm_compute. repeat constructor; intros E; discriminate E.
Defined.

(** X10.  For the chunks of a document chunked without pages, the context of a
    chunk with a size [k >= 0] is the texts of the up to [k] chunks before it,
    its own text and the texts of the up to [k] chunks after it, in document
    order, joined by single spaces; the window is cut at both ends of the
    document. *)
Theorem get_chunk_context_window self txt doc fname dtype l1 c l2 k :
  chunk_document self txt doc fname dtype None = l1 ++ c :: l2 ->
  0 <= k ->
  get_chunk_context c (l1 ++ c :: l2) k
  = join [SP] (map text (drop (length l1 - Z.to_nat k) l1
                         ++ c :: take (Z.to_nat k) l2)).
Proof.
  intros E Hk.
  pose proof (chunk_document_doc_id self txt doc fname dtype None) as Hd.
  pose proof (_chunk_text_numbered self doc fname dtype None txt) as Hn.
  change (_chunk_text self doc fname dtype None txt)
    with (chunk_document self txt doc fname dtype None) in Hn.
  rewrite E in Hd, Hn.
  assert (Hc : doc_id c = doc).
  { rewrite Forall_forall in Hd. apply Hd, in_app_iff. simpl. tauto. }
  apply get_chunk_context_at; [| |reflexivity|exact Hk].
  - rewrite Hc, (filter_same_doc _ _ Hd).
    destruct Hn as [Hi _]. apply (sort_by_index_numbered _ _ _ Hi).
  - apply (numbered_ids_differ _ _ _ _ _ Hn).
Qed.

Lemma get_chunk_context_window_witness :
  get_chunk_context first_tiny_chunk
    ([] ++ first_tiny_chunk
        :: [mkChunk (u "d1_chunk_1") (u "d1") (u "t") (u "f") None 1
              (u "D. E f g.")]) 1
  = u "A b c. D. E f g.".
Proof.
  rewrite (get_chunk_context_window tiny_chunker three_sentences
             (u "d1") (u "f") (u "t") [] first_tiny_chunk
             [mkChunk (u "d1_chunk_1") (u "d1") (u "t") (u "f") None 1
                (u "D. E f g.")] 1).
  - vm_compute. reflexivity.
  - vm_compute. reflexivity.
  - lia.
Defined.

(** X11.  With pages, the first chunk of the second page has the id of the
    first chunk of the first page, and the lookup by id finds that one: the
    context of the second page's first chunk is the context of the first
    page's first chunk, and for context size 0 it is the text of the first
    page's first chunk, not the chunk's own text. *)
Theorem get_chunk_context_paged_wrong_chunk
    self txt doc fname dtype p1 p2 c1 r1 c2 r2 k :
  _chunk_text self doc fname dtype (Some (pg_number p1)) (pg_text p1)
  = c1 :: r1 ->
  _chunk_text self doc fname dtype (Some (pg_number p2)) (pg_text p2)
  = c2 :: r2 ->
  let all := chunk_document self txt doc fname dtype (Some [p1; p2]) in
  get_chunk_context c2 all k = get_chunk_context c1 all k /\
  get_chunk_context c2 all 0 = text c1.
Proof.
  intros E1 E2 all.
  destruct (paged_ids_repeat self txt doc fname dtype p1 p2 c1 r1 c2 r2 E1 E2)
    as (Eall & Hid & _).
  fold all in Eall.
  pose proof (chunk_document_doc_id self txt doc fname dtype (Some [p1; p2]))
    as Hd.
  fold all in Hd.
  assert (Hd1 : doc_id c1 = doc).
  { rewrite Forall_forall in Hd. apply Hd. rewrite Eall. left. reflexivity. }
  assert (Hd2 : doc_id c2 = doc).
  { rewrite Forall_forall in Hd. apply Hd. rewrite Eall.
    apply in_app_iff. right. left. reflexivity. }
  assert (Hsame : forall k', get_chunk_context c2 all k'
                             = get_chunk_context c1 all k').
  { intros k'. unfold get_chunk_context. rewrite Hd1, Hd2, Hid.
    destruct (first_with_id _ _) eqn:Ef; [reflexivity|].
    exfalso. rewrite (filter_same_doc _ _ Hd), Eall in Ef.
    apply first_chunk_index_zero in E1 as [Hi1 _].
    simpl app in Ef. rewrite (sort_by_index_zero_first _ _ Hi1) in Ef.
    simpl in Ef. rewrite bool_decide_eq_true_2 in Ef by exact Hid.
    discriminate Ef. }
  split; [apply Hsame|]. rewrite Hsame.
  apply first_chunk_index_zero in E1 as [Hi1 _].
  assert (Hs : sort_by_index (filter (fun x => doc_id x = doc_id c1) all)
               = [] ++ c1 :: sort_by_index (r1 ++ c2 :: r2)).
  { rewrite Hd1, (filter_same_doc _ _ Hd), Eall. simpl app.
    apply (sort_by_index_zero_first _ _ Hi1). }
  rewrite (get_chunk_context_at c1 all [] c1 _ 0 Hs);
    [|constructor|reflexivity|lia].
  reflexivity.
Qed.

Lemma get_chunk_context_paged_wrong_chunk_witness :
  get_chunk_context second_page_chunk
    (chunk_document plain_chunker [] (u "d1") (u "f") (u "t")
       (Some two_small_pages)) 0
  = u "A b c.".
Proof.
  assert (E1 : _chunk_text plain_chunker (u "d1") (u "f") (u "t")
                 (Some (pg_number (mkPage 1 (u "A b c."))))
                 (pg_text (mkPage 1 (u "A b c.")))
               = first_page_chunk :: [])
    by (vm_compute; reflexivity).
  assert (E2 : _chunk_text plain_chunker (u "d1") (u "f") (u "t")
                 (Some (pg_number (mkPage 2 (u "D e f."))))
                 (pg_text (mkPage 2 (u "D e f.")))
               = second_page_chunk :: [])
    by (vm_compute; reflexivity).
  exact (proj2 (get_chunk_context_paged_wrong_chunk plain_chunker []
                  (u "d1") (u "f") (u "t")
                  (mkPage 1 (u "A b c.")) (mkPage 2 (u "D e f."))
                  first_page_chunk [] second_page_chunk [] 0 E1 E2)).
Defined.

End ContextExtras.

(** ** Further properties of the vector store *)

Module StoreExtras.
Import Faiss Store Stats FaissFacts StoreFacts StoreClaims Samples Samples2.
Import Chunker ContextExtras.

(** *** Adding and looking up *)

Lemma add_embeddings_Ok self embeddings chunks :
  fst (add_embeddings self embeddings chunks) = Ok tt ->
  length (rows embeddings) = length chunks /\
  width embeddings = d (index self) /\
  snd (add_embeddings self embeddings chunks)
  = mkStore (embedding_dim self)
      (mkIndex (d (index self)) (xb (index self) ++ rows embeddings))
      (metadata self ++ map meta_of_chunk chunks).
Proof.
  unfold add_embeddings, add.
  destruct (Nat.eqb (length (rows embeddings)) (length chunks)) eqn:El;
    simpl; [|discriminate].
  destruct (Nat.eqb (width embeddings) (d (index self))) eqn:Ew;
    simpl; [|discriminate].
  intros _. apply Nat.eqb_eq in El, Ew. auto.
Qed.

Lemma get_chunks_of_chunks doc (chunks : list ChunkMetadata) :
  filter (fun m => m_doc_id m = doc) (map meta_of_chunk chunks)
  = map meta_of_chunk (filter (fun c => doc_id c = doc) chunks).
Proof.
  induction chunks as [|c cs IH]; [reflexivity|].
  simpl map. destruct (decide (doc_id c = doc)) as [E|E].
  - rewrite !filter_cons_True by exact E. simpl. rewrite IH. reflexivity.
  - rewrite !filter_cons_False by exact E. exact IH.
Qed.

(** X12.  After a successful [add_embeddings], the chunks found for a document
    are the ones found before followed by the added chunks of that document,
    in the order they were given. *)
Theorem added_chunks_are_found self embeddings chunks doc :
  fst (add_embeddings self embeddings chunks) = Ok tt ->
  get_chunks_by_doc_id (snd (add_embeddings self embeddings chunks)) doc
  = get_chunks_by_doc_id self doc
    ++ map meta_of_chunk (filter (fun c => doc_id c = doc) chunks).
Proof.
  intros H. apply add_embeddings_Ok in H as (_ & _ & ->).
  unfold get_chunks_by_doc_id. simpl.
  rewrite list.filter_app, get_chunks_of_chunks. reflexivity.
Qed.

Lemma added_chunks_are_found_witness :
  get_chunks_by_doc_id
    (snd (add_embeddings (new_store 2)
            (mkArray 2 [[0%Q; 0%Q]; [3%Q; 4%Q]]) two_chunks)) (u "d")
  = get_chunks_by_doc_id (new_store 2) (u "d")
    ++ map meta_of_chunk (filter (fun c => doc_id c = u "d") two_chunks).
Proof.
  apply added_chunks_are_found. vm_compute. reflexivity.
Defined.

(** X13.  The upload pipeline: when the chunks [chunk_document] makes for a
    document that has no chunks in the store yet are added with their
    embeddings, looking the document up gives exactly these chunks, in order,
    with all their fields. *)
Theorem chunked_document_is_retrievable
    self chunker txt doc fname dtype pages embeddings :
  let chunks := chunk_document chunker txt doc fname dtype pages in
  get_chunks_by_doc_id self doc = [] ->
  fst (add_embeddings self embeddings chunks) = Ok tt ->
  get_chunks_by_doc_id (snd (add_embeddings self embeddings chunks)) doc
  = map meta_of_chunk chunks.
Proof.
  intros chunks Hnew H. apply add_embeddings_Ok in H as (_ & _ & ->).
  unfold get_chunks_by_doc_id in *. simpl.
  rewrite list.filter_app, Hnew, get_chunks_of_chunks. simpl.
  rewrite (filter_same_doc doc chunks); [reflexivity|].
  apply chunk_document_doc_id.
Qed.

Lemma chunked_document_is_retrievable_witness :
  get_chunks_by_doc_id
    (snd (add_embeddings (new_store 2)
            (mkArray 2 [[0%Q; 0%Q]; [3%Q; 4%Q]])
            (chunk_document tiny_chunker three_sentences
               (u "d1") (u "f") (u "t") None))) (u "d1")
  = map meta_of_chunk
      (chunk_document tiny_chunker three_sentences
         (u "d1") (u "f") (u "t") None).
Proof.
  apply (chunked_document_is_retrievable (new_store 2) tiny_chunker
           three_sentences (u "d1") (u "f") (u "t") None
           (mkArray 2 [[0%Q; 0%Q]; [3%Q; 4%Q]])).
  - reflexivity.
  - vm_compute. reflexivity.
Defined.

(** *** Deleting *)

Lemma fst_combine_same_length {A B} (xs : list A) : forall (ys : list B),
  length xs = length ys -> map fst (combine xs ys) = xs.
Proof.
  induction xs as [|x xs IH]; intros [|y ys] H; try discriminate;
    [reflexivity|].
  simpl. f_equal. apply IH. simpl in H. lia.
Qed.

Lemma snd_combine_same_length {A B} (xs : list A) : forall (ys : list B),
  length xs = length ys -> map snd (combine xs ys) = ys.
Proof.
  induction xs as [|x xs IH]; intros [|y ys] H; try discriminate;
    [reflexivity|].
  simpl. f_equal. apply IH. simpl in H. lia.
Qed.

(** What [delete_document] leaves behind, whether or not the document has
    chunks. *)
Lemma delete_document_spec self doc :
  store_wf self ->
  delete_document self doc
  = (Ok tt,
     mkStore (embedding_dim self)
       (mkIndex (embedding_dim self)
          (map fst (filter (fun p => m_doc_id (snd p) <> doc)
                           (entries self))))
       (filter (fun m => m_doc_id m <> doc) (metadata self))).
Proof.
  intros Hwf.
  destruct (decide (get_chunks_by_doc_id self doc = [])) as [E|E].
  - pose proof E as Hk. apply none_to_delete in Hk.
    unfold delete_document. cbv zeta. rewrite Hk, Nat.eqb_refl.
    destruct Hwf as [Hd Hlen]. unfold entries.
    rewrite (combine_keep_all doc _ _ E).
    rewrite fst_combine_same_length by (symmetry; exact Hlen).
    rewrite (filter_none_all (fun m => m_doc_id m = doc) _ E).
    destruct self as [dim [dd rows0] ms]. simpl in *. subst dd. reflexivity.
  - apply (delete_document_wf_spec self doc Hwf E).
Qed.

Lemma entries_after_delete self doc :
  store_wf self ->
  entries (snd (delete_document self doc))
  = filter (fun p => m_doc_id (snd p) <> doc) (entries self).
Proof.
  intros Hwf. rewrite (delete_document_spec self doc Hwf). unfold entries.
  simpl.
  rewrite <- (snd_kept (fun m => m_doc_id m <> doc)
                (xb (index self)) (metadata self))
    by (symmetry; apply Hwf).
  apply combine_fst_snd.
Qed.

Lemma filter_comm_list {A} (P R : A -> Prop)
    `{forall a, Decision (P a)} `{forall a, Decision (R a)} (l : list A) :
  filter P (filter R l) = filter R (filter P l).
Proof.
  induction l as [|a l IH]; [reflexivity|].
  destruct (decide (P a)) as [Hp|Hp], (decide (R a)) as [Hr|Hr];
    repeat first [rewrite (filter_cons_True P) by assumption
                 |rewrite (filter_cons_True R) by assumption
                 |rewrite (filter_cons_False P) by assumption
                 |rewrite (filter_cons_False R) by assumption];
    rewrite ?IH; reflexivity.
Qed.

Lemma filter_other_doc {A} (get : A -> str) doc doc' (l : list A) :
  doc' <> doc ->
  filter (fun a => get a = doc') (filter (fun a => get a <> doc) l)
  = filter (fun a => get a = doc') l.
Proof.
  intros Hne. induction l as [|a l IH]; [reflexivity|].
  destruct (decide (get a = doc)) as [E|E].
  - rewrite (filter_cons_False (fun a => get a <> doc)) by tauto.
    rewrite (filter_cons_False (fun a => get a = doc')) by congruence.
    exact IH.
  - rewrite (filter_cons_True (fun a => get a <> doc)) by exact E.
    destruct (decide (get a = doc')) as [E'|E'].
    + rewrite !(filter_cons_True (fun a => get a = doc')) by exact E'.
      rewrite IH. reflexivity.
    + rewrite !(filter_cons_False (fun a => get a = doc')) by exact E'.
      exact IH.
Qed.

(** X14.  Deleting one document leaves every other document as it was: the
    same chunks in the same order, each with the vector it was stored with. *)
Theorem delete_keeps_other_documents self doc doc' :
  store_wf self -> doc' <> doc ->
  let after := snd (delete_document self doc) in
  get_chunks_by_doc_id after doc' = get_chunks_by_doc_id self doc' /\
  filter (fun p => m_doc_id (snd p) = doc') (entries after)
  = filter (fun p => m_doc_id (snd p) = doc') (entries self).
Proof.
  intros Hwf Hne after. split.
  - subst after. rewrite (delete_document_spec self doc Hwf).
    unfold get_chunks_by_doc_id. simpl.
    apply (filter_other_doc m_doc_id doc doc' _ Hne).
  - subst after. rewrite (entries_after_delete self doc Hwf).
    apply (filter_other_doc (fun p : list Q * Meta => m_doc_id (snd p))
             doc doc' _ Hne).
Qed.

Lemma delete_keeps_other_documents_witness :
  get_chunks_by_doc_id (snd (delete_document sample_store (u "a"))) (u "b")
  = [sample_meta (u "b")] /\
  entries (snd (delete_document sample_store (u "a")))
  = [([3%Q; 4%Q], sample_meta (u "b"))].
Proof.
  assert (Hwf : store_wf sample_store) by (split; reflexivity).
  assert (Hne : u "b" <> u "a") by (intros E; discriminate E).
  destruct (delete_keeps_other_documents sample_store (u "a") (u "b")
              Hwf Hne) as [H1 H2].
  split; [rewrite H1; vm_compute; reflexivity|]. vm_compute. reflexivity.
Defined.

Lemma delete_document_keeps_wf self doc :
  store_wf self -> store_wf (snd (delete_document self doc)).
Proof.
  intros Hwf. rewrite (delete_document_spec self doc Hwf). split; simpl.
  - reflexivity.
  - unfold ntotal, entries. simpl. rewrite length_map.
    symmetry. apply (length_kept (fun m => m_doc_id m <> doc)).
    symmetry. apply Hwf.
Qed.

(** X15.  Deleting two documents gives the same store in either order. *)
Theorem delete_document_commutes self doc1 doc2 :
  store_wf self ->
  snd (delete_document (snd (delete_document self doc1)) doc2)
  = snd (delete_document (snd (delete_document self doc2)) doc1).
Proof.
  intros Hwf.
  pose proof (delete_document_keeps_wf self doc1 Hwf) as Hwf1.
  pose proof (delete_document_keeps_wf self doc2 Hwf) as Hwf2.
  rewrite (delete_document_spec _ doc2 Hwf1),
          (delete_document_spec _ doc1 Hwf2).
  rewrite (entries_after_delete self doc1 Hwf),
          (entries_after_delete self doc2 Hwf).
  rewrite !(delete_document_spec self _ Hwf). simpl.
  rewrite (filter_comm_list (fun p : list Q * Meta => m_doc_id (snd p) <> doc2)
             (fun p => m_doc_id (snd p) <> doc1)).
  rewrite (filter_comm_list (fun m => m_doc_id m <> doc2)
             (fun m => m_doc_id m <> doc1)).
  reflexivity.
Qed.

Lemma delete_document_commutes_witness :
  snd (delete_document (snd (delete_document sample_store (u "a"))) (u "b"))
  = new_store 2.
Proof.
  rewrite (delete_document_commutes sample_store (u "a") (u "b")).
  - vm_compute. reflexivity.
  - split; reflexivity.
Defined.

Lemma filter_app_fresh {A B} (get : B -> str) doc
    `{forall p : A * B, Decision (get (snd p) <> doc)} :
  forall (xs : list A) (ms : list B) (ys : list A) (ns : list B),
    length xs = length ms ->
    filter (fun m => get m = doc) ms = [] ->
    Forall (fun n => get n = doc) ns ->
    filter (fun p : A * B => get (snd p) <> doc)
           (combine (xs ++ ys) (ms ++ ns))
    = combine xs ms.
Proof.
  induction xs as [|x xs IH]; intros [|m ms] ys ns Hlen Hf Hns;
    try discriminate.
  - simpl. clear Hlen Hf. revert ys.
    induction Hns as [|n ns Hn _ IHn]; intros [|y ys]; try reflexivity.
    simpl combine. rewrite filter_cons_False by (simpl; tauto). apply IHn.
  - simpl in Hlen. simpl app. simpl combine.
    destruct (decide (get m = doc)) as [E|E].
    + rewrite filter_cons_True in Hf by exact E. discriminate Hf.
    + rewrite filter_cons_False in Hf by exact E.
      rewrite filter_cons_True by exact E.
      f_equal. apply IH; [lia|exact Hf|exact Hns].
Qed.

(** X16.  Adding the chunks of a document the store does not hold and deleting
    that document again gives back the store as it was. *)
Theorem add_then_delete_restores self embeddings chunks doc :
  store_wf self ->
  get_chunks_by_doc_id self doc = [] ->
  Forall (fun c => doc_id c = doc) chunks ->
  fst (add_embeddings self embeddings chunks) = Ok tt ->
  delete_document (snd (add_embeddings self embeddings chunks)) doc
  = (Ok tt, self).
Proof.
  intros Hwf Hnew Hdoc Hadd.
  pose proof (add_embeddings_wf self embeddings chunks Hwf) as Hwf'.
  rewrite (delete_document_spec _ doc Hwf').
  apply add_embeddings_Ok in Hadd as (Hlen & Hw & ->).
  destruct Hwf as [Hd Hl]. unfold entries. simpl.
  assert (Hns : Forall (fun n => m_doc_id n = doc) (map meta_of_chunk chunks)).
  { apply Forall_forall. intros n Hn. apply in_map_iff in Hn as (c & <- & Hc).
    rewrite Forall_forall in Hdoc. apply (Hdoc c Hc). }
  rewrite (filter_app_fresh m_doc_id doc (xb (index self)) (metadata self)
             (rows embeddings) (map meta_of_chunk chunks)
             (eq_sym Hl) Hnew Hns).
  rewrite fst_combine_same_length by (symmetry; exact Hl).
  rewrite list.filter_app.
  rewrite (filter_none_all (fun m => m_doc_id m = doc) _ Hnew).
  assert (E : filter (fun m => m_doc_id m <> doc) (map meta_of_chunk chunks)
              = []).
  { clear -Hns. induction Hns as [|n ns Hn _ IH]; [reflexivity|].
    rewrite filter_cons_False by tauto. exact IH. }
  rewrite E, app_nil_r.
  destruct self as [dim [dd rows0] ms]. simpl in *. subst dd. reflexivity.
Qed.

Lemma add_then_delete_restores_witness :
  delete_document
    (snd (add_embeddings sample_store
            (mkArray 2 [[1%Q; 1%Q]; [2%Q; 2%Q]]) two_chunks)) (u "d")
  = (Ok tt, sample_store).
Proof.
  apply add_then_delete_restores.
  - split; reflexivity.
  - reflexivity.
  - repeat constructor.
  - vm_compute. reflexivity.
Defined.

(** *** Searching without a filter *)




Lemma lookup_In_enumerate_from {A} (l : list A) : forall n i (v : A),
  l !! i = Some v -> In ((n + i)%nat, v) (combine (seq n (length l)) l).
Proof.
  induction l as [|a l IH]; intros n [|i] v H; try discriminate.
  - injection H as ->. left. f_equal. lia.
  - right. simpl in H. replace (n + S i)%nat with (S n + i)%nat by lia.
    apply IH, H.
Qed.


Lemma ranked_has idx q i v :
  xb idx !! i = Some v -> In (sqdist q v, i) (ranked idx q).
Proof.
  intros H. unfold ranked. apply sort_by_dist_In.
  apply in_map_iff. exists (i, v). split; [reflexivity|].
  apply (lookup_In_enumerate_from _ 0%nat), H.
Qed.

Lemma ranked_sorted idx q : StronglySorted dist_le (ranked idx q).
Proof. apply sort_by_dist_sorted. Qed.

Lemma ranked_label_bound idx q c :
  In c (ranked idx q) -> (snd c < ntotal idx)%nat.
Proof.
  intros H. apply ranked_In in H as (v & Hv & _).
  apply lookup_lt_Some in Hv. exact Hv.
Qed.


(** The candidates an unfiltered search looks at. *)
Lemma omap_keep_unfiltered self cands :
  Forall (fun c => (snd c < length (metadata self))%nat) cands ->
  Forall2 (fun r c => metadata self !! snd c = Some (fst r)
                      /\ snd r = similarity_of (fst c))
          (omap (keep_candidate self None) cands) cands.
Proof.
  induction 1 as [|c cands Hc _ IH]; [constructor|].
  simpl. unfold keep_candidate at 1.
  destruct (lookup_lt_is_Some_2 _ _ Hc) as [m Hm]. rewrite Hm. simpl.
  constructor; [split; [exact Hm|reflexivity]|exact IH].
Qed.

Lemma search_unfiltered self q top_k :
  store_wf self -> length q = d (index self) -> 1 <= top_k ->
  exists res,
    search self q top_k None = Ok res /\
    Forall2 (fun r c => metadata self !! snd c = Some (fst r)
                        /\ snd r = similarity_of (fst c))
            res
            (take (Nat.min (Z.to_nat top_k) (ntotal (index self)))
                  (ranked (index self) q)).
Proof.
  intros [Hd Hlen] Hq Hk. unfold search.
  destruct (Nat.eqb (ntotal (index self)) 0) eqn:En.
  - apply Nat.eqb_eq in En. exists []. split; [reflexivity|].
    rewrite En, Nat.min_0_r. simpl. constructor.
  - apply Nat.eqb_neq in En. simpl search_k.
    set (n := ntotal (index self)) in *.
    destruct (search_total (index self) q (Z.min top_k (Z.of_nat n)) Hq)
      as (dists & labels & Es); [lia|].
    rewrite Es. apply search_Ok in Es as (_ & _ & Ec).
    eexists. split; [reflexivity|].
    rewrite search_loop_spec by (simpl; lia).
    simpl app. rewrite Ec.
    replace (Z.to_nat (Z.min top_k (Z.of_nat n)))
      with (Nat.min (Z.to_nat top_k) n) by lia.
    set (cands := take (Nat.min (Z.to_nat top_k) n) (ranked (index self) q)).
    assert (Hall : Forall (fun c => (snd c < length (metadata self))%nat)
                          cands).
    { apply Forall_forall. intros c Hc. rewrite Hlen.
      apply (ranked_label_bound _ q). apply In_take with (n := Nat.min (Z.to_nat top_k) n).
      apply list_elem_of_In, Hc. }
    pose proof (omap_keep_unfiltered self cands Hall) as HF.
    rewrite take_ge; [exact HF|].
    apply Forall2_length in HF. rewrite HF. subst cands.
    rewrite length_take. simpl. lia.
Qed.





Lemma sqdist_self (v : list Q) : (sqdist v v == 0)%Q.
Proof.
  unfold sqdist. induction v as [|x v IH]; simpl; [reflexivity|].
  rewrite IH. ring.
Qed.

(** X18.  Asking for a vector that is stored: the first result of an
    unfiltered search has similarity 1. *)
Theorem stored_vector_is_top_match self i v top_k :
  store_wf self -> xb (index self) !! i = Some v ->
  length v = d (index self) -> 1 <= top_k ->
  exists r rest,
    search self v top_k None = Ok (r :: rest) /\ (snd r == 1)%Q.
Proof.
  intros Hwf Hv Hq Hk.
  destruct (search_unfiltered self v top_k Hwf Hq Hk) as (res & Es & HF).
  pose proof (ranked_has (index self) v i v Hv) as Hin.
  pose proof (ranked_sorted (index self) v) as Hs.
  pose proof (ranked_nonneg (index self) v) as Hnn.
  pose proof (ranked_length (index self) v) as Hl.
  apply lookup_lt_Some in Hv. fold (ntotal (index self)) in Hv.
  destruct (ranked (index self) v) as [|c rk]; [destruct Hin|].
  destruct (Nat.min (Z.to_nat top_k) (ntotal (index self))) as [|k] eqn:Ek;
    [lia|].
  simpl in HF. inversion HF as [|r c' rest cands [_ Hr] _]; subst.
  exists r, rest. split; [exact Es|].
  assert (H0 : (fst c == 0)%Q).
  { apply Qle_antisym.
    - rewrite <- (sqdist_self v). destruct Hin as [Hc|Hin].
      + rewrite Hc. simpl. apply Qle_refl.
      + apply StronglySorted_inv in Hs as [_ Hc].
        rewrite Forall_forall in Hc. apply (Hc _ Hin).
    - inversion Hnn; assumption. }
  rewrite Hr. unfold similarity_of. rewrite H0. reflexivity.
Qed.

Lemma stored_vector_is_top_match_witness :
  exists r rest,
    search sample_store [3%Q; 4%Q] 2 None = Ok (r :: rest) /\ (snd r == 1)%Q.
Proof.
  apply (stored_vector_is_top_match sample_store 1%nat [3%Q; 4%Q] 2).
  - split; reflexivity.
  - reflexivity.
  - reflexivity.
  - lia.
Defined.

(** *** Statistics *)

Lemma doc_ids_after_filter doc (ms : list Meta) :
  map m_doc_id (filter (fun m => m_doc_id m <> doc) ms)
  = filter (fun i => i <> doc) (map m_doc_id ms).
Proof.
  induction ms as [|m ms IH]; [reflexivity|].
  simpl map. destruct (decide (m_doc_id m = doc)) as [E|E].
  - rewrite (filter_cons_False (fun m => m_doc_id m <> doc)) by tauto.
    rewrite (filter_cons_False (fun i => i <> doc)) by tauto. exact IH.
  - rewrite (filter_cons_True (fun m => m_doc_id m <> doc)) by exact E.
    rewrite (filter_cons_True (fun i => i <> doc)) by exact E.
    simpl. rewrite IH. reflexivity.
Qed.

Lemma doc_id_present doc (ms : list Meta) :
  filter (fun m => m_doc_id m = doc) ms <> [] <-> doc ∈ map m_doc_id ms.
Proof.
  induction ms as [|m ms IH].
  - split; [intros H; exfalso; apply H; reflexivity|].
    intros H. inversion H.
  - simpl map. destruct (decide (m_doc_id m = doc)) as [E|E].
    + rewrite filter_cons_True by exact E. split; [|discriminate].
      intros _. rewrite E. left.
    + rewrite filter_cons_False by exact E. rewrite IH.
      split; [intros H; right; exact H|].
      intros H. inversion H; subst; [congruence|assumption].
Qed.

Lemma length_filter_one (x : str) (l : list str) :
  NoDup l -> x ∈ l -> length (filter (fun y => y = x) l) = 1%nat.
Proof.
  induction 1 as [|y l Hy Hnd IH]; intros Hx; [inversion Hx|].
  destruct (decide (y = x)) as [E|E].
  - rewrite filter_cons_True by exact E. simpl. f_equal. subst y.
    destruct (filter (fun y => y = x) l) as [|z r] eqn:Ef; [reflexivity|].
    exfalso. apply Hy.
    assert (Hz : z ∈ filter (fun y => y = x) l) by (rewrite Ef; left).
    apply list_elem_of_filter in Hz as [-> Hz]. exact Hz.
  - rewrite filter_cons_False by exact E. apply IH.
    inversion Hx; subst; [congruence|assumption].
Qed.

Lemma distinct_after_filter (doc : str) (l : list str) :
  doc ∈ l ->
  (length (remove_dups (filter (fun i => i <> doc) l)) + 1)%nat
  = length (remove_dups l).
Proof.
  intros Hin.
  assert (P : Permutation (remove_dups (filter (fun i => i <> doc) l))
                          (filter (fun i => i <> doc) (remove_dups l))).
  { apply list.NoDup_Permutation.
    - apply NoDup_remove_dups.
    - apply list.NoDup_filter, NoDup_remove_dups.
    - intros x.
      rewrite elem_of_remove_dups, !list_elem_of_filter,
              elem_of_remove_dups. reflexivity. }
  rewrite (Permutation_length P).
  rewrite <- (length_filter_split (fun i => i = doc) (remove_dups l)).
  rewrite (length_filter_one doc (remove_dups l)).
  - reflexivity.
  - apply NoDup_remove_dups.
  - apply elem_of_remove_dups, Hin.
Qed.

(** X19.  What [get_stats] reports after a document that has chunks is
    deleted: one document less, as many chunks less as the document had, and
    the same dimension. *)
Theorem get_stats_after_delete self doc size size' :
  store_wf self ->
  get_chunks_by_doc_id self doc <> [] ->
  let before := get_stats self size in
  let after := get_stats (snd (delete_document self doc)) size' in
  (st_total_documents after + 1)%nat = st_total_documents before /\
  (st_total_chunks after + length (get_chunks_by_doc_id self doc))%nat
  = st_total_chunks before /\
  st_embedding_dim after = st_embedding_dim before.
Proof.
  intros Hwf Hdoc before after. subst before after.
  rewrite (delete_document_spec self doc Hwf).
  unfold get_stats, total_documents, ntotal. simpl.
  split; [|split; [|reflexivity]].
  - rewrite doc_ids_after_filter. apply distinct_after_filter.
    apply doc_id_present, Hdoc.
  - rewrite length_map. unfold entries.
    rewrite (length_kept (fun m => m_doc_id m <> doc))
      by (symmetry; apply Hwf).
    unfold get_chunks_by_doc_id.
    rewrite (length_filter_split (fun m => m_doc_id m = doc)).
    apply Hwf.
Qed.

Lemma get_stats_after_delete_witness :
  (st_total_documents
     (get_stats (snd (delete_document sample_store (u "a"))) None) + 1)%nat
  = st_total_documents (get_stats sample_store None).
Proof.
  assert (Hwf : store_wf sample_store) by (split; reflexivity).
  assert (Hdoc : get_chunks_by_doc_id sample_store (u "a") <> [])
    by (vm_compute; discriminate).
  exact (proj1 (get_stats_after_delete sample_store (u "a") None None
                  Hwf Hdoc)).
Defined.

End StoreExtras.

(** ** Further properties of the answering engine *)

Module RAGExtras.
Import Faiss Store RAG Api FaissFacts StoreFacts StoreClaims Samples.

(** *** Questions that retrieve nothing *)

Lemma keep_candidate_no_match self i ids cands :
  Forall (fun m => m_doc_id m ∉ i :: ids) (metadata self) ->
  omap (keep_candidate self (Some (i :: ids))) cands = [].
Proof.
  intros Hno. induction cands as [|c cands IH]; [reflexivity|].
  assert (E : keep_candidate self (Some (i :: ids)) c = None).
  { unfold keep_candidate.
    destruct (metadata self !! snd c) as [m|] eqn:Em; [|reflexivity].
    assert (Hm : m_doc_id m ∉ i :: ids).
    { rewrite Forall_forall in Hno. apply Hno.
      apply list_elem_of_In, list_elem_of_lookup. eauto. }
    unfold filtered_out. rewrite bool_decide_eq_false_2 by exact Hm.
    reflexivity. }
  change (omap (keep_candidate self (Some (i :: ids))) (c :: cands))
    with (match keep_candidate self (Some (i :: ids)) c with
          | Some r => r :: omap (keep_candidate self (Some (i :: ids))) cands
          | None => omap (keep_candidate self (Some (i :: ids))) cands
          end).
  rewrite E. exact IH.
Qed.

Lemma search_no_match self q top_k i ids :
  Forall (fun m => m_doc_id m ∉ i :: ids) (metadata self) ->
  length q = d (index self) -> 1 <= top_k ->
  search self q top_k (Some (i :: ids)) = Ok [].
Proof.
  intros Hno Hq Hk. unfold search.
  destruct (Nat.eqb (ntotal (index self)) 0) eqn:En; [reflexivity|].
  apply Nat.eqb_neq in En.
  destruct (search_total (index self) q
              (Z.min (search_k top_k (Some (i :: ids)))
                     (Z.of_nat (ntotal (index self)))) Hq)
    as (dists & labels & Es); [simpl; lia|].
  rewrite Es. rewrite search_loop_spec by (simpl; lia).
  rewrite (keep_candidate_no_match self i ids _ Hno).
  rewrite take_nil. reflexivity.
Qed.

(** X20.  A question restricted to documents of which the store holds no chunk
    gets the fixed answer that there is not enough information, with no
    sources and confidence 0; the question is embedded, and no generative
    service is called. *)
Theorem query_without_matching_document ext self question i ids top_k :
  Forall (fun m => m_doc_id m ∉ i :: ids) (metadata (vector_store self)) ->
  length (embed_text ext question) = d (index (vector_store self)) ->
  1 <= top_k ->
  query ext self question (Some (i :: ids)) top_k
  = (Ok (mkResponse question insufficient_answer [] (Some 0%Q)),
     [EmbedCall question]).
Proof.
  intros Hno Hq Hk. unfold query.
  rewrite (search_no_match _ _ _ _ _ Hno Hq Hk). reflexivity.
Qed.

Lemma query_without_matching_document_witness :
  query offline sample_engine (u "What is the policy number?")
        (Some [u "zz"]) 5
  = (Ok (mkResponse (u "What is the policy number?") insufficient_answer []
           (Some 0%Q)),
     [EmbedCall (u "What is the policy number?")]).
Proof.
  apply query_without_matching_document.
  - constructor; [|constructor; [|constructor]];
      intros H; apply list_elem_of_In in H; destruct H as [H|[]];
      discriminate H.
  - reflexivity.
  - lia.
Defined.

(** *** The calls a question causes *)

(** X21.  Whatever the services answer: the question is embedded once, first;
    when nothing is retrieved (or the search raises) nothing else is called;
    otherwise exactly one generative call follows, to the service selected at
    start-up and with the prompt built from the retrieved chunks, also when
    that call fails and the fallback answers. *)
Theorem query_calls_one_backend ext self question doc_ids top_k :
  let calls := snd (query ext self question doc_ids top_k) in
  match search (vector_store self) (embed_text ext question) top_k doc_ids
  with
  | Ok (r :: rs) =>
      let prompt := _create_prompt question (context_of (r :: rs)) in
      calls = [EmbedCall question;
               match llm_type self with
               | openai => OpenAICall prompt
               | ollama => OllamaCall prompt
               end]
  | _ => calls = [EmbedCall question]
  end.
Proof.
  unfold query.
  destruct (search _ _ _ _) as [[|r rs]|e]; try reflexivity.
  simpl negb. cbv iota.
  unfold _generate_answer, generate.
  destruct (llm_type self).
  - destruct (_generate_with_openai ext _); reflexivity.
  - destruct (_generate_with_ollama ext _); reflexivity.
Qed.

(** *** Sources and confidence *)

Lemma sum_above (l : list Q) : forall a,
  Forall (fun s => (0 < s)%Q) l -> (a <= fold_left Qplus l a)%Q.
Proof.
  induction l as [|x l IH]; intros a H; simpl; [apply Qle_refl|].
  inversion H as [|? ? Hx Hl]; subst.
  eapply Qle_trans; [|apply (IH _ Hl)].
  rewrite <- (Qplus_0_r a) at 1. apply Qplus_le_r. apply Qlt_le_weak, Hx.
Qed.

Lemma sum_positive (l : list Q) :
  l <> [] -> Forall (fun s => (0 < s)%Q) l -> (0 < fold_left Qplus l 0)%Q.
Proof.
  intros Hne H. destruct l as [|x l]; [congruence|].
  inversion H as [|? ? Hx Hl]; subst. simpl.
  eapply Qlt_le_trans; [|apply (sum_above _ _ Hl)].
  rewrite Qplus_0_l. exact Hx.
Qed.

Lemma confidence_of_range srcs :
  srcs <> [] ->
  Forall (fun s => (0 < similarity_score s)%Q) srcs ->
  (0 < confidence_of srcs)%Q /\ (confidence_of srcs <= 1)%Q.
Proof.
  intros Hne Hpos. unfold confidence_of. cbv zeta.
  set (total := fold_left Qplus (map similarity_score srcs) 0%Q).
  set (n := inject_Z (Z.of_nat (length srcs))).
  assert (Ht : (0 < total)%Q).
  { apply sum_positive.
    - destruct srcs; [congruence|discriminate].
    - apply Forall_map. exact Hpos. }
  assert (Hn : (0 < n)%Q).
  { subst n. change 0%Q with (inject_Z 0). rewrite <- Zlt_Qlt.
    destruct srcs; [congruence|]. simpl length. lia. }
  assert (Hs : (0 < total / n * (12 # 10))%Q).
  { apply Qmult_lt_0_compat; [|reflexivity].
    apply Qlt_shift_div_l; [exact Hn|]. rewrite Qmult_0_l. exact Ht. }
  destruct (Qle_bool _ 1) eqn:E.
  - split; [exact Hs|]. apply Qle_bool_iff, E.
  - split; [reflexivity|apply Qle_refl].
Qed.

(** X22.  Every response of [query] that has sources lists the retrieved
    chunks in the order the search gave them, each with a similarity in (0,
    1], and reports a confidence in (0, 1]; a response without sources reports
    confidence 0. *)
Theorem query_sources_and_confidence
    ext self question doc_ids top_k resp calls :
  query ext self question doc_ids top_k = (Ok resp, calls) ->
  exists results c,
    search (vector_store self) (embed_text ext question) top_k doc_ids
    = Ok results /\
    sources resp = map source_of results /\
    Forall (fun s => (0 < similarity_score s)%Q
                     /\ (similarity_score s <= 1)%Q) (sources resp) /\
    confidence resp = Some c /\
    (results = [] -> c = 0%Q) /\
    (results <> [] -> (0 < c)%Q /\ (c <= 1)%Q).
Proof.
  unfold query. intros H.
  destruct (search _ _ _ _) as [results|e] eqn:Es; [|discriminate H].
  pose proof (search_results_stored _ _ _ _ _ Es) as Hst.
  assert (Hsim : Forall (fun s => (0 < similarity_score s)%Q
                                  /\ (similarity_score s <= 1)%Q)
                        (map source_of results)).
  { apply Forall_map. eapply List.Forall_impl; [|exact Hst].
    intros r (i & v & _ & _ & Hr & _). simpl. rewrite Hr.
    apply similarity_bounds, sqdist_nonneg. }
  destruct results as [|r rs].
  - simpl in H. injection H as <- _. exists [], 0%Q.
    split; [reflexivity|]. split; [reflexivity|].
    split; [constructor|]. split; [reflexivity|].
    split; [reflexivity|]. intros Hne. exfalso. apply Hne. reflexivity.
  - simpl negb in H. cbv iota in H.
    destruct (_generate_answer ext self question _) as [ans evs].
    injection H as <- _.
    exists (r :: rs), (confidence_of (map source_of (r :: rs))).
    split; [reflexivity|]. split; [reflexivity|].
    split; [exact Hsim|]. split; [reflexivity|].
    split; [discriminate|]. intros _.
    apply confidence_of_range; [discriminate|].
    eapply List.Forall_impl; [|exact Hsim]. intros s [Hs _]. exact Hs.
Qed.

Lemma query_sources_and_confidence_witness :
  exists results c,
    search (vector_store sample_engine)
           (embed_text offline (u "What is the policy number?")) 5 None
    = Ok results /\
    results <> [] /\ (0 < c)%Q /\ (c <= 1)%Q.
Proof.
  destruct (query offline sample_engine (u "What is the policy number?")
              None 5) as [[resp|e] calls] eqn:E;
    [|vm_compute in E; discriminate E].
  destruct (query_sources_and_confidence offline sample_engine
              (u "What is the policy number?") None 5 resp calls E)
    as (results & c & Es & _ & _ & _ & _ & Hc).
  exists results, c. split; [exact Es|].
  assert (Hne : results <> []).
  { intros ->. vm_compute in Es. discriminate Es. }
  split; [exact Hne|]. apply Hc, Hne.
Defined.

End RAGExtras.
